(** * Peregrine front end: the statement and expression parser

    A shallow embedding of [Peregrine/lexer/tokens.py], [Peregrine/parser/ast.py]
    and [Peregrine/parser/parser.py].  Python's exceptions, the mutable
    [Parser] object and the objects that live on classes (and are therefore
    shared by every instance) are modelled by a state-and-exception monad
    over an instance record and a heap record. *)

From Stdlib Require Import ZArith List String Bool Lia.
Import ListNotations.

Local Open Scope Z_scope.
Set Warnings "-register-all".

(** ** lexer/tokens.py *)

(** [class TokenType(IntEnum)]: every member is [auto()], so the members are
    numbered 1, 2, ... in the order of declaration. *)
Module TokenType.

Inductive t : Set :=
  | tk_plus | tk_minus | tk_divide | tk_asterisk | tk_xor | tk_modulo
  | tk_greater | tk_less | tk_ampersand | tk_bit_or | tk_bit_not | tk_assign
  | tk_excl | tk_colon | tk_dot | tk_l_paren | tk_r_paren | tk_hashtag
  | tk_comma | tk_exponent | tk_equal | tk_not_equal | tk_floor
  | tk_gr_or_equ | tk_less_or_equ | tk_increment | tk_decrement | tk_arrow
  | tk_shift_right | tk_shift_left | tk_floor_equal | tk_plus_equal
  | tk_minus_equal | tk_times_equal | tk_slash_equal | tk_mod_equal
  | tk_shift_right_equal | tk_shift_left_equal | tk_bit_and_equal
  | tk_bit_or_equal | tk_bit_xor_equal | tk_identifier | tk_true | tk_false
  | tk_none | tk_const | tk_import | tk_cppimport | tk_himport | tk_if
  | tk_else | tk_elif | tk_while | tk_for | tk_break | tk_continue | tk_match
  | tk_extern | tk_case | tk_default | tk_def | tk_pass | tk_return | tk_and
  | tk_or | tk_not | tk_is | tk_in | tk_cppcode | tk_class | tk_struct
  | tk_str | tk_bool | tk_char | tk_float | tk_float32 | tk_void | tk_int
  | tk_int32 | tk_int16 | tk_int8 | tk_uint32 | tk_uint16 | tk_uint8
  | tk_uint | decimal | integer | cpp | array | dictionary | string
  | tk_ident | tk_dedent | tk_raw | tk_format.

Definition value (x : t) : Z :=
  match x with
  | tk_plus => 1 | tk_minus => 2 | tk_divide => 3 | tk_asterisk => 4
  | tk_xor => 5 | tk_modulo => 6 | tk_greater => 7 | tk_less => 8
  | tk_ampersand => 9 | tk_bit_or => 10 | tk_bit_not => 11 | tk_assign => 12
  | tk_excl => 13 | tk_colon => 14 | tk_dot => 15 | tk_l_paren => 16
  | tk_r_paren => 17 | tk_hashtag => 18 | tk_comma => 19 | tk_exponent => 20
  | tk_equal => 21 | tk_not_equal => 22 | tk_floor => 23 | tk_gr_or_equ => 24
  | tk_less_or_equ => 25 | tk_increment => 26 | tk_decrement => 27
  | tk_arrow => 28 | tk_shift_right => 29 | tk_shift_left => 30
  | tk_floor_equal => 31 | tk_plus_equal => 32 | tk_minus_equal => 33
  | tk_times_equal => 34 | tk_slash_equal => 35 | tk_mod_equal => 36
  | tk_shift_right_equal => 37 | tk_shift_left_equal => 38
  | tk_bit_and_equal => 39 | tk_bit_or_equal => 40 | tk_bit_xor_equal => 41
  | tk_identifier => 42 | tk_true => 43 | tk_false => 44 | tk_none => 45
  | tk_const => 46 | tk_import => 47 | tk_cppimport => 48 | tk_himport => 49
  | tk_if => 50 | tk_else => 51 | tk_elif => 52 | tk_while => 53
  | tk_for => 54 | tk_break => 55 | tk_continue => 56 | tk_match => 57
  | tk_extern => 58 | tk_case => 59 | tk_default => 60 | tk_def => 61
  | tk_pass => 62 | tk_return => 63 | tk_and => 64 | tk_or => 65
  | tk_not => 66 | tk_is => 67 | tk_in => 68 | tk_cppcode => 69
  | tk_class => 70 | tk_struct => 71 | tk_str => 72 | tk_bool => 73
  | tk_char => 74 | tk_float => 75 | tk_float32 => 76 | tk_void => 77
  | tk_int => 78 | tk_int32 => 79 | tk_int16 => 80 | tk_int8 => 81
  | tk_uint32 => 82 | tk_uint16 => 83 | tk_uint8 => 84 | tk_uint => 85
  | decimal => 86 | integer => 87 | cpp => 88 | array => 89
  | dictionary => 90 | string => 91 | tk_ident => 92 | tk_dedent => 93
  | tk_raw => 94 | tk_format => 95
  end.

(** Members of an [IntEnum] compare as the integers they are. *)
Definition eqb (a b : t) : bool := Z.eqb (value a) (value b).

(** [TokenType.tk_ccode]: the enumeration has no member of that name (the
    member for embedded code is [tk_cppcode]); evaluating the attribute
    raises [AttributeError]. *)
Definition tk_ccode : option t := None.

End TokenType.

(** [@dataclass class Token].  [tk_type] is annotated [int]; the parser only
    ever compares it with members of [TokenType], and the tokens it is given
    carry such members.  The field [tab : float] is never read by the parser
    and is left out. *)
Record Token : Set := mkToken {
  keyword : string;
  index : Z;
  line : Z;
  tk_type : TokenType.t
}.

(** ** parser/parser.py: precedences and tables *)

(** [class Precedence(IntEnum)], again numbered by [auto()]. *)
Module Precedence.

Inductive t : Set :=
  | pr_lowest   (* lowest possible precedence *)
  | pr_and      (* and, or *)
  | pr_not      (* not *)
  | pr_equal    (* ==, !=, <, >, <=, >= *)
  | pr_sum      (* +, - *)
  | pr_mul      (* *, /, %, // *)
  | pr_prefix.  (* -x *)

Definition value (p : t) : Z :=
  match p with
  | pr_lowest => 1 | pr_and => 2 | pr_not => 3 | pr_equal => 4
  | pr_sum => 5 | pr_mul => 6 | pr_prefix => 7
  end.

Definition gtb (a b : t) : bool := Z.gtb (value a) (value b).

(** [Precedence.pr_lowestr], as [parseVariableReassignment] spells it: there
    is no such member; evaluating the attribute raises [AttributeError]. *)
Definition pr_lowestr : option t := None.

End Precedence.

(** [precedenceMap : Dict[TokenType, Precedence]], in the order of the
    dictionary display. *)
Definition precedenceMap : list (TokenType.t * Precedence.t) :=
  [ (TokenType.tk_and, Precedence.pr_and);
    (TokenType.tk_or, Precedence.pr_and);
    (TokenType.tk_not, Precedence.pr_not);
    (TokenType.tk_equal, Precedence.pr_equal);
    (TokenType.tk_not_equal, Precedence.pr_equal);
    (TokenType.tk_greater, Precedence.pr_equal);
    (TokenType.tk_less, Precedence.pr_equal);
    (TokenType.tk_gr_or_equ, Precedence.pr_equal);
    (TokenType.tk_less_or_equ, Precedence.pr_equal);
    (TokenType.tk_plus, Precedence.pr_sum);
    (TokenType.tk_minus, Precedence.pr_sum);
    (TokenType.tk_asterisk, Precedence.pr_mul);
    (TokenType.tk_divide, Precedence.pr_mul) ].

(** [precedenceMap[k]]; [None] stands for [KeyError], and [k in precedenceMap]
    is [dict_get] being [Some _]. *)
Fixpoint dict_get {V : Type} (d : list (TokenType.t * V)) (k : TokenType.t)
  : option V :=
  match d with
  | [] => None
  | (k', v) :: d' => if TokenType.eqb k k' then Some v else dict_get d' k
  end.

Definition LangTypes : list TokenType.t :=
  [ TokenType.tk_str; TokenType.tk_bool; TokenType.tk_char;
    TokenType.tk_float; TokenType.tk_float32; TokenType.tk_void;
    TokenType.tk_int; TokenType.tk_int32; TokenType.tk_int16;
    TokenType.tk_int8; TokenType.tk_uint32; TokenType.tk_uint16;
    TokenType.tk_uint8; TokenType.tk_uint ].

(** [x in LangTypes] *)
Definition list_contains (l : list TokenType.t) (x : TokenType.t) : bool :=
  existsb (TokenType.eqb x) l.

(** ** parser/ast.py *)

(** The node classes.  [IntegerLiteral] to [PrefixExpression] are the classes
    of ast.py. *)
Inductive Node : Set :=
  | IntegerLiteral (value : string)
  | StringLiteral (value : string)
  | BoolLiteral (value : bool)
  | Identifier (value : string)
  | BinaryOperation (left : Node) (operator : string) (right : Node)
  | PrefixExpression (prefix : string) (value : Node)
  (** The two statement shapes of the data model: a declaration holds the
      declared type token, the name and an optional initializer; a
      reassignment holds the target name and the new value.  ast.py declares
      no class for either, and the calls of parser.py that would construct
      them raise (see [ast.VariableDeclaration] below): no operation of the
      parser builds one.  They are here so that a statement about what the
      parser builds can tell it from what it does not. *)
  | VariableDeclaration (varType : Token) (name : string) (value : option Node)
  | VariableReassignment (identifier : string) (newValue : Node).

(** [__str__].  The two shapes for which ast.py declares no class have no
    rendering ([None]); a node that contains one has none either. *)
Fixpoint Node_str (n : Node) : option string :=
  match n with
  | IntegerLiteral v => Some v
  | StringLiteral v => Some v
  | BoolLiteral b => Some (if b then "true" else "false")%string
  | Identifier v => Some v
  | BinaryOperation l op r =>
      match Node_str l, Node_str r with
      | Some sl, Some sr => Some ("(" ++ sl ++ " " ++ op ++ " " ++ sr ++ ")")%string
      | _, _ => None
      end
  | PrefixExpression p v =>
      match Node_str v with
      | Some sv => Some ("(" ++ p ++ sv ++ ")")%string
      | None => None
      end
  | VariableDeclaration _ _ _ => None
  | VariableReassignment _ _ => None
  end.

(** The attributes of the module [ast] that parser.py reads and ast.py does
    not define: evaluating [ast.VariableDeclaration] or
    [ast.VariableReassignment] raises [AttributeError]. *)
Module ast.

Definition VariableDeclaration
  : option (Token -> string -> option Node -> Node) := None.

Definition VariableReassignment : option (string -> Node -> Node) := None.

End ast.

(** An instance of [class Program].  The class has no [__init__]: an instance
    has no attribute of its own, and [programNode.nodes] is the list object
    bound to the class attribute [Program.nodes], the same object for every
    instance.  The instance therefore carries nothing, and the list lives in
    the heap ([Program_nodes] below). *)
Inductive ProgramNode : Set := Program.

(** [Program.__str__]: the renderings of the statements, concatenated.  An
    entry [None] is Python's [None] (what the reserved statement parsers
    return), whose [__str__()] is ["None"]. *)
Fixpoint Program_str (nodes : list (option Node)) : option string :=
  match nodes with
  | [] => Some ""%string
  | n :: rest =>
      match (match n with Some x => Node_str x | None => Some "None"%string end),
            Program_str rest with
      | Some s, Some r => Some (s ++ r)%string
      | _, _ => None
      end
  end.

(** ** Diagnostics *)

(** Modelled from the spec: the module [errors.errors] ([Location],
    [PEError]) is not part of the sources.  A location bundles line, column,
    file name and the text of the source line; a diagnostic pairs a location
    with a title, a message, a hint and an error code, in the order in which
    [Parser.error] passes them. *)
Record Location : Set := mkLocation {
  loc_line : Z;
  loc_col : Z;
  loc_file : string;
  loc_code : string
}.

Record PEError : Set := mkPEError {
  err_loc : Location;
  err_title : string;
  err_message : string;
  err_hint : string;
  err_code : string
}.

(** What the run writes to its output: the two [print] calls of
    [parseExpression] and [err.display()]. *)
Inductive Output : Set :=
  | Printed (s : string)
  | PrintedType (t : TokenType.t)
  | Displayed (e : PEError).

(** ** The parser object and the heap *)

(** The attributes of one [Parser] instance.  [tk_index] starts as the class
    attribute 0 and becomes an instance attribute at the first [+=];
    [current_token] is only annotated on the class, so it does not exist
    ([None]) until [advance] first assigns it. *)
Record Parser : Set := mkParser {
  tk_index : Z;
  filename : string;
  tokens : list Token;
  current_token : option Token
}.

(** What is shared by all instances: the list bound to the class attribute
    [Parser.errors], the list bound to [Program.nodes], the output written so
    far, and the files [Parser.error] can open (path and lines). *)
Record Heap : Set := mkHeap {
  Parser_errors : list PEError;
  Program_nodes : list (option Node);
  stdout : list Output;
  files : list (string * list string)
}.

Inductive PyError : Set :=
  | AttributeError
  | UnboundLocalError
  | KeyError
  | IndexError
  | FileNotFoundError
  | SystemExit (status : Z).

(** The outcome of a call: a value, or an exception, each with the parser
    object and the heap as the call leaves them; or no outcome within the
    recursion budget. *)
Inductive Res (A : Type) : Type :=
  | Ok (a : A) (self : Parser) (h : Heap)
  | Raise (e : PyError) (self : Parser) (h : Heap)
  | OutOfFuel.
Arguments Ok {A} a self h.
Arguments Raise {A} e self h.
Arguments OutOfFuel {A}.

Definition M (A : Type) : Type := Parser -> Heap -> Res A.

Definition ret {A} (a : A) : M A := fun self h => Ok a self h.

Definition bind {A B} (m : M A) (k : A -> M B) : M B :=
  fun self h =>
    match m self h with
    | Ok a self' h' => k a self' h'
    | Raise e self' h' => Raise e self' h'
    | OutOfFuel => OutOfFuel
    end.

Definition raise {A} (e : PyError) : M A := fun self h => Raise e self h.

Definition out_of_fuel {A} : M A := fun _ _ => OutOfFuel.

Declare Scope py_scope.
Delimit Scope py_scope with py.
Notation "x <- m ;; k" := (bind m (fun x => k))
  (at level 100, m at next level, right associativity) : py_scope.
Notation "m ;;; k" := (bind m (fun _ => k))
  (at level 100, right associativity) : py_scope.
Local Open Scope py_scope.

Definition get_self : M Parser := fun self h => Ok self self h.
Definition get_heap : M Heap := fun self h => Ok h self h.
Definition set_self (s : Parser) : M unit := fun _ h => Ok tt s h.
Definition set_heap (h : Heap) : M unit := fun self _ => Ok tt self h.

(** Reading an attribute that may not exist, a name that may not be bound,
    a key that may be absent. *)
Definition getattr {A} (o : option A) : M A :=
  match o with Some a => ret a | None => raise AttributeError end.

Definition local {A} (o : option A) : M A :=
  match o with Some a => ret a | None => raise UnboundLocalError end.

Definition getitem {A} (o : option A) : M A :=
  match o with Some a => ret a | None => raise KeyError end.

(** [l[i]] on a Python list: a negative index counts from the end. *)
Definition list_getitem {A} (l : list A) (i : Z) : option A :=
  let n := Z.of_nat (List.length l) in
  if 0 <=? i then nth_error l (Z.to_nat i)
  else if 0 <=? n + i then nth_error l (Z.to_nat (n + i))
  else None.

Definition len {A} (l : list A) : Z := Z.of_nat (List.length l).

(** [next(index, code)] of lexer/tokens.py: the empty string when [index] is
    the last position, the element after [index] otherwise; [None] stands for
    the [IndexError] of [code[index+1]]. *)
Definition next (index : Z) (code : list string) : option string :=
  if len code =? index + 1 then Some ""%string
  else list_getitem code (index + 1).

Definition print (o : Output) : M unit :=
  fun self h =>
    Ok tt self (mkHeap (Parser_errors h) (Program_nodes h)
                       (stdout h ++ [o]) (files h)).

(** [self.current_token] *)
Definition read_current_token : M Token :=
  self <- get_self ;; getattr (current_token self).

(** ** parser/parser.py: class Parser *)

(** [advance]: returns at once when the index has reached the length;
    otherwise moves onto [tokens[tk_index]] and increments the index. *)
Definition advance : M unit :=
  self <- get_self ;;
  if tk_index self >=? len (tokens self) then ret tt
  else
    match list_getitem (tokens self) (tk_index self) with
    | None => raise IndexError
    | Some t =>
        set_self (mkParser (tk_index self + 1) (filename self)
                           (tokens self) (Some t))
    end.

(** [nextToken]: the token at the index, or Python's [None]. *)
Definition nextToken : M (option Token) :=
  self <- get_self ;;
  if tk_index self <? len (tokens self) then
    match list_getitem (tokens self) (tk_index self) with
    | None => raise IndexError
    | Some t => ret (Some t)
    end
  else ret None.

(** [expect]: [self.nextToken().tk_type] raises [AttributeError] when there is
    no next token; on a mismatch the body of the [if] is [pass]; the parser
    advances in either case. *)
Definition expect (tokenType : TokenType.t) : M unit :=
  nt <- nextToken ;;
  t <- getattr nt ;;
  (if negb (TokenType.eqb (tk_type t) tokenType) then ret tt (* pass *)
   else ret tt) ;;;
  advance.

(** [nextPrecedence].  A [Token] is a dataclass without [__bool__] or
    [__len__]: it is true, and only [None] is false. *)
Definition nextPrecedence : M Precedence.t :=
  nt <- nextToken ;;
  match nt with
  | Some t =>
      match dict_get precedenceMap (tk_type t) with
      | Some p => ret p
      | None => ret Precedence.pr_lowest
      end
  | None => ret Precedence.pr_lowest
  end.

(** [open(self.filename)] *)
Fixpoint open_file (fs : list (string * list string)) (path : string)
  : option (list string) :=
  match fs with
  | [] => None
  | (p, ls) :: fs' => if String.eqb p path then Some ls else open_file fs' path
  end.

(** The loop of [error] over [enumerate(code)]: the line whose zero-based
    number equals [n], or the initial [""]. *)
Fixpoint find_line (i : Z) (n : Z) (ls : list string) : string :=
  match ls with
  | [] => ""%string
  | l :: ls' => if i =? n then l else find_line (i + 1) n ls'
  end.

(** [error]: builds a diagnostic at the current token and appends it to
    [self.errors], which is the list of the class. *)
Definition error (message errorCode : string) : M unit :=
  self <- get_self ;;
  h <- get_heap ;;
  match open_file (files h) (filename self) with
  | None => raise FileNotFoundError
  | Some ls =>
      cur <- read_current_token ;;
      let codeBlock := find_line 0 (line cur) ls in
      let newError :=
        mkPEError (mkLocation (line cur) (index cur) (filename self) codeBlock)
                  "error code str" message "error code hint" errorCode in
      set_heap (mkHeap (Parser_errors h ++ [newError]) (Program_nodes h)
                       (stdout h) (files h))
  end.

Definition parseInteger : M Node :=
  cur <- read_current_token ;; ret (IntegerLiteral (keyword cur)).

Definition parseString : M Node :=
  cur <- read_current_token ;; ret (StringLiteral (keyword cur)).

Definition parseBool : M Node :=
  cur <- read_current_token ;;
  ret (BoolLiteral (TokenType.eqb (tk_type cur) TokenType.tk_true)).

Definition parseIdentifier : M Node :=
  cur <- read_current_token ;; ret (Identifier (keyword cur)).

(** The three helpers that call back into [parseExpression] take it as
    [rec]. *)
Definition parseBinaryOperation (rec : Precedence.t -> M Node) (left : Node)
  : M Node :=
  cur <- read_current_token ;;
  currentPrecedence <- getitem (dict_get precedenceMap (tk_type cur)) ;;
  cur <- read_current_token ;;
  let operator := keyword cur in
  advance ;;;
  right <- rec currentPrecedence ;;
  ret (BinaryOperation left operator right).

Definition parsePrefixExpression (rec : Precedence.t -> M Node) : M Node :=
  cur <- read_current_token ;;
  let prefix := keyword cur in
  advance ;;;
  right <- rec Precedence.pr_prefix ;;
  ret (PrefixExpression prefix right).

Definition parseGroupedExpression (rec : Precedence.t -> M Node) : M Node :=
  advance ;;;
  node <- rec Precedence.pr_lowest ;;
  expect TokenType.tk_r_paren ;;;
  ret node.

(** The primary of [parseExpression]: the [if]/[elif] chain on the tag of the
    current token.  The result is the local [left], which the last branch
    leaves unbound ([None]) after its two [print]s. *)
Definition parsePrimary (rec : Precedence.t -> M Node) : M (option Node) :=
  cur <- read_current_token ;;
  let ty := tk_type cur in
  if TokenType.eqb ty TokenType.tk_int then
    n <- parseInteger ;; ret (Some n)
  else if TokenType.eqb ty TokenType.tk_str then
    n <- parseString ;; ret (Some n)
  else if TokenType.eqb ty TokenType.tk_bool then
    n <- parseBool ;; ret (Some n)
  else if TokenType.eqb ty TokenType.tk_identifier then
    n <- parseIdentifier ;; ret (Some n)
  else if TokenType.eqb ty TokenType.tk_l_paren then
    n <- parseGroupedExpression rec ;; ret (Some n)
  else if TokenType.eqb ty TokenType.tk_minus then
    n <- parsePrefixExpression rec ;; ret (Some n)
  else
    print (Printed "Error: ") ;;;
    print (PrintedType ty) ;;;
    ret None.

(** [parseExpression] and its [while] loop ([climb]).  In the loop the call
    [self.parseBinaryOperation(left)] reads [left] after [self.advance()];
    [return left] reads it too. *)
Fixpoint parseExpression (fuel : nat) (precedence : Precedence.t)
  {struct fuel} : M Node :=
  match fuel with
  | O => out_of_fuel
  | S fuel' =>
      left <- parsePrimary (parseExpression fuel') ;;
      climb fuel' precedence left
  end
with climb (fuel : nat) (precedence : Precedence.t) (left : option Node)
  {struct fuel} : M Node :=
  match fuel with
  | O => out_of_fuel
  | S fuel' =>
      np <- nextPrecedence ;;
      if Precedence.gtb np precedence then
        advance ;;;
        l <- local left ;;
        left' <- parseBinaryOperation (parseExpression fuel') l ;;
        climb fuel' precedence (Some left')
      else local left
  end.

(** [parseVariableReassignment]: the argument [Precedence.pr_lowestr] is
    evaluated after the two [advance]s and before the call; the last line
    evaluates [ast.VariableReassignment]. *)
Definition parseVariableReassignment (fuel : nat) : M Node :=
  cur <- read_current_token ;;
  let identifier := keyword cur in
  advance ;;;
  advance ;;;
  p <- getattr Precedence.pr_lowestr ;;
  newValue <- parseExpression fuel p ;;
  VariableReassignment <- getattr ast.VariableReassignment ;;
  ret (VariableReassignment identifier newValue).

(** [parseVariableDeclaration].  The test of the early return is
    [self.nextToken() and self.nextToken().tk_type != TokenType.tk_assign]:
    false when there is no next token.  Both [return]s evaluate
    [ast.VariableDeclaration], the second one after the initializer has been
    parsed. *)
Definition parseVariableDeclaration (fuel : nat) : M Node :=
  varType <- read_current_token ;;
  expect TokenType.tk_identifier ;;;
  cur <- read_current_token ;;
  let name := keyword cur in
  nt <- nextToken ;;
  if match nt with
     | Some t => negb (TokenType.eqb (tk_type t) TokenType.tk_assign)
     | None => false
     end
  then
    VariableDeclaration <- getattr ast.VariableDeclaration ;;
    ret (VariableDeclaration varType name None)
  else
    advance ;;;
    advance ;;;
    value <- parseExpression fuel Precedence.pr_lowest ;;
    VariableDeclaration <- getattr ast.VariableDeclaration ;;
    ret (VariableDeclaration varType name (Some value)).

(** The reserved statement parsers: their body is [pass], they return
    Python's [None]. *)
Definition parseIf : M (option Node) := ret None.
Definition parseWhile : M (option Node) := ret None.
Definition parseFor : M (option Node) := ret None.
Definition parseMatch : M (option Node) := ret None.
Definition parseFunctionDeclaration : M (option Node) := ret None.

(** [self.parseCcode]: the class has no such method. *)
Definition parseCcode : option (M (option Node)) := None.

(** [parseStatement].  In the identifier branch the inner [if] has no [else]
    and does not return: the assignment from [parseVariableReassignment]
    follows it in every case.  The last [elif] evaluates
    [TokenType.tk_ccode]. *)
Definition parseStatement (fuel : nat) : M (option Node) :=
  cur <- read_current_token ;;
  let ty := tk_type cur in
  if TokenType.eqb ty TokenType.tk_identifier then
    nt <- nextToken ;;
    (if match nt with
        | Some t => negb (TokenType.eqb (tk_type t) TokenType.tk_assign)
        | None => false
        end
     then newNode <- parseExpression fuel Precedence.pr_lowest ;; ret tt
     else ret tt) ;;;
    newNode <- parseVariableReassignment fuel ;;
    ret (Some newNode)
  else if list_contains LangTypes ty then
    newNode <- parseVariableDeclaration fuel ;;
    ret (Some newNode)
  else if TokenType.eqb ty TokenType.tk_if then parseIf
  else if TokenType.eqb ty TokenType.tk_while then parseWhile
  else if TokenType.eqb ty TokenType.tk_for then parseFor
  else if TokenType.eqb ty TokenType.tk_match then parseMatch
  else if TokenType.eqb ty TokenType.tk_def then parseFunctionDeclaration
  else
    ccode <- getattr TokenType.tk_ccode ;;
    if TokenType.eqb ty ccode then
      m <- getattr parseCcode ;; m
    else
      (* no matches found, current token must be part of an expression *)
      newNode <- parseExpression fuel Precedence.pr_lowest ;;
      ret (Some newNode).

(** [programNode.nodes.append(node)]: appends to the list of the class. *)
Definition Program_nodes_append (node : option Node) : M unit :=
  fun self h =>
    Ok tt self (mkHeap (Parser_errors h) (Program_nodes h ++ [node])
                       (stdout h) (files h)).

(** The [while] loop of [parse]; [n] bounds the number of iterations. *)
Fixpoint parse_while (n : nat) (fuel : nat) {struct n} : M unit :=
  match n with
  | O => out_of_fuel
  | S n' =>
      self <- get_self ;;
      if tk_index self <? len (tokens self) then
        node <- parseStatement fuel ;;
        Program_nodes_append node ;;;
        advance ;;;
        parse_while n' fuel
      else ret tt
  end.

(** [for err in self.errors: err.display()] *)
Fixpoint display_all (errs : list PEError) : M unit :=
  match errs with
  | [] => ret tt
  | e :: errs' => print (Displayed e) ;;; display_all errs'
  end.

(** [parse]: [exit(1)] raises [SystemExit(1)]. *)
Definition parse (fuel : nat) : M ProgramNode :=
  let programNode := Program in
  parse_while fuel fuel ;;;
  h <- get_heap ;;
  if negb (len (Parser_errors h) =? 0) then
    display_all (Parser_errors h) ;;;
    raise (SystemExit 1)
  else ret programNode.

(** [Parser(filename, tokens)]: a new object, on which [__init__] calls
    [advance]. *)
Definition Parser_new (filename : string) (tokens : list Token)
  (h : Heap) : Res unit :=
  advance (mkParser 0 filename tokens None) h.

(** One whole run: construct the parser, call [parse]. *)
Definition run (fuel : nat) (filename : string) (tokens : list Token)
  (h : Heap) : Res ProgramNode :=
  match Parser_new filename tokens h with
  | Ok _ self h' => parse fuel self h'
  | Raise e self h' => Raise e self h'
  | OutOfFuel => OutOfFuel
  end.

(** The heap of a fresh interpreter: both class lists empty. *)
Definition fresh_heap (fs : list (string * list string)) : Heap :=
  mkHeap [] [] [] fs.

(** Shorthand for tokens in examples; position and line play no part in
    parsing. *)
Definition tok (k : string) (t : TokenType.t) : Token := mkToken k 0 1 t.

(** * Vocabulary of the properties *)

(** ** What a call may change *)

(** [cursor_ok] and [frame] relate the parser object and the heap before a
    call to those after it, whether the call returned or raised: same token
    list and file name, an index that did not decrease and did not pass the
    length, the two class lists and the files untouched. *)
Definition cursor_ok (s s' : Parser) : Prop :=
  tokens s' = tokens s /\ filename s' = filename s /\
  tk_index s <= tk_index s' <= Z.max (tk_index s) (len (tokens s)).

Definition frame (s : Parser) (h : Heap) (s' : Parser) (h' : Heap) : Prop :=
  cursor_ok s s' /\
  Parser_errors h' = Parser_errors h /\
  Program_nodes h' = Program_nodes h /\
  files h' = files h.

(** [P] holds of the parser object and heap a call leaves. *)
Definition outcome {A} (P : Parser -> Heap -> Prop) (r : Res A) : Prop :=
  match r with
  | Ok _ s' h' => P s' h'
  | Raise _ s' h' => P s' h'
  | OutOfFuel => True
  end.

(** A computation that respects the frame from every start. *)
Definition framed {A} (m : M A) : Prop :=
  forall s h, outcome (frame s h) (m s h).

(** The loop of [parse] appends to [Program.nodes] and [parse] writes the
    diagnostics out; the rest of the frame holds for them too. *)
Definition loop_frame (s : Parser) (h : Heap) (s' : Parser) (h' : Heap)
  : Prop :=
  cursor_ok s s' /\
  Parser_errors h' = Parser_errors h /\
  (exists l, Program_nodes h' = Program_nodes h ++ l) /\
  files h' = files h.

(** The heap with its output replaced. *)
Definition with_stdout (h : Heap) (out : list Output) : Heap :=
  mkHeap (Parser_errors h) (Program_nodes h) out (files h).

(** ** The statements of a run, in the order of parsing *)

(** The heap once [node] is appended to [Program.nodes]. *)
Definition append_node (h : Heap) (node : option Node) : Heap :=
  mkHeap (Parser_errors h) (Program_nodes h ++ [node]) (stdout h) (files h).

(** [statements_from fuel s h stmts s' h']: starting from [s] and [h], the
    successive calls of [parseStatement], each followed by the append and by
    [advance], return the nodes [stmts] in that order and exhaust the
    cursor in [s'] and [h']. *)
Inductive statements_from (fuel : nat)
  : Parser -> Heap -> list (option Node) -> Parser -> Heap -> Prop :=
  | statements_done s h :
      len (tokens s) <= tk_index s ->
      statements_from fuel s h [] s h
  | statements_next s h node s1 h1 s2 h2 rest s3 h3 :
      tk_index s < len (tokens s) ->
      parseStatement fuel s h = Ok node s1 h1 ->
      advance s1 (append_node h1 node) = Ok tt s2 h2 ->
      statements_from fuel s2 h2 rest s3 h3 ->
      statements_from fuel s h (node :: rest) s3 h3.

(** ** The cursor *)

(** The index is between 0 and the length of the token list. *)
Definition in_bounds (s : Parser) : Prop :=
  0 <= tk_index s <= len (tokens s).

(** After the call, returned or raised: same tokens, an index that did not
    decrease and is within bounds. *)
Definition keeps_cursor {A} (s : Parser) (r : Res A) : Prop :=
  outcome (fun s' _ =>
             tokens s' = tokens s /\ tk_index s <= tk_index s' /\ in_bounds s')
          r.

(** ** Entry points and inputs of the scenarios *)

(** [Parser(filename, tokens).parseExpression(Precedence.pr_lowest)] *)
Definition run_expression (fuel : nat) (filename : string)
  (tokens : list Token) (h : Heap) : Res Node :=
  match Parser_new filename tokens h with
  | Ok _ self h' => parseExpression fuel Precedence.pr_lowest self h'
  | Raise e self h' => Raise e self h'
  | OutOfFuel => OutOfFuel
  end.

(** [Parser(filename, tokens).parseStatement()] *)
Definition run_statement (fuel : nat) (filename : string)
  (tokens : list Token) (h : Heap) : Res (option Node) :=
  match Parser_new filename tokens h with
  | Ok _ self h' => parseStatement fuel self h'
  | Raise e self h' => Raise e self h'
  | OutOfFuel => OutOfFuel
  end.

(** The value of a call that returned. *)
Definition returned {A} (r : Res A) : option A :=
  match r with Ok a _ _ => Some a | _ => None end.

(** The exception of a call that raised. *)
Definition raised {A} (r : Res A) : option PyError :=
  match r with Raise e _ _ => Some e | _ => None end.

(** The heap a call leaves. *)
Definition heap_after {A} (r : Res A) : option Heap :=
  match r with Ok _ _ h => Some h | Raise _ _ h => Some h | OutOfFuel => None end.

(** Token sequences of the scenarios.  [literal] is the tag given to the
    numerals: tokens.py has [integer] for a value such as 89, and [tk_int]
    for the type keyword [int]. *)
Definition tokens_1_plus_2_times_3 (literal : TokenType.t) : list Token :=
  [ tok "1" literal; tok "+" TokenType.tk_plus; tok "2" literal;
    tok "*" TokenType.tk_asterisk; tok "3" literal ].

Definition tokens_1_times_2_plus_3 (literal : TokenType.t) : list Token :=
  [ tok "1" literal; tok "*" TokenType.tk_asterisk; tok "2" literal;
    tok "+" TokenType.tk_plus; tok "3" literal ].

Definition tokens_1_minus_2_minus_3 (literal : TokenType.t) : list Token :=
  [ tok "1" literal; tok "-" TokenType.tk_minus; tok "2" literal;
    tok "-" TokenType.tk_minus; tok "3" literal ].

Definition tokens_x_assign_5_plus_1 (literal : TokenType.t) : list Token :=
  [ tok "x" TokenType.tk_identifier; tok "=" TokenType.tk_assign;
    tok "5" literal; tok "+" TokenType.tk_plus; tok "1" literal ].

Definition tokens_x_plus_y : list Token :=
  [ tok "x" TokenType.tk_identifier; tok "+" TokenType.tk_plus;
    tok "y" TokenType.tk_identifier ].

Definition tokens_int_x : list Token :=
  [ tok "int" TokenType.tk_int; tok "x" TokenType.tk_identifier ].

Definition tokens_int_assign_5 : list Token :=
  [ tok "int" TokenType.tk_int; tok "=" TokenType.tk_assign;
    tok "5" TokenType.integer ].

Definition tokens_x_minus : list Token :=
  [ tok "x" TokenType.tk_identifier; tok "-" TokenType.tk_minus ].

Definition tokens_int_a_int_b : list Token :=
  [ tok "int" TokenType.tk_int; tok "a" TokenType.tk_identifier;
    tok "int" TokenType.tk_int; tok "b" TokenType.tk_identifier ].

Definition tokens_int_x_if : list Token :=
  [ tok "int" TokenType.tk_int; tok "x" TokenType.tk_identifier;
    tok "if" TokenType.tk_if ].

(** Parsers over two of the token lists: as [Parser_new] makes them, and,
    for [int x if], standing on the last token; and a diagnostic. *)
Definition parser_int_a_int_b : Parser :=
  mkParser 1 "main.pe" tokens_int_a_int_b (Some (tok "int" TokenType.tk_int)).

Definition parser_int_x_if : Parser :=
  mkParser 1 "main.pe" tokens_int_x_if (Some (tok "int" TokenType.tk_int)).

Definition parser_int_x_if_done : Parser :=
  mkParser 3 "main.pe" tokens_int_x_if (Some (tok "if" TokenType.tk_if)).

(** Two token lists of reserved keywords, and the parsers over them as
    [Parser_new] makes them and as [parse] leaves them. *)
Definition tokens_if_while_for : list Token :=
  [ tok "if" TokenType.tk_if; tok "while" TokenType.tk_while;
    tok "for" TokenType.tk_for ].

Definition tokens_def_match_def : list Token :=
  [ tok "def" TokenType.tk_def; tok "match" TokenType.tk_match;
    tok "def" TokenType.tk_def ].

Definition parser_if_while_for : Parser :=
  mkParser 1 "a.pe" tokens_if_while_for (Some (tok "if" TokenType.tk_if)).

Definition parser_if_while_for_done : Parser :=
  mkParser 3 "a.pe" tokens_if_while_for (Some (tok "for" TokenType.tk_for)).

Definition parser_def_match_def_done : Parser :=
  mkParser 3 "b.pe" tokens_def_match_def (Some (tok "def" TokenType.tk_def)).

Definition some_diagnostic : PEError :=
  mkPEError (mkLocation 1 0 "main.pe" "int x") "error code str"
            "unexpected token" "error code hint" "E1".

(** The heap after a first run, over [if while for], in a fresh interpreter:
    the two statements of that run are in [Program.nodes]. *)
Definition heap_after_first_run : Heap :=
  mkHeap [] [ None; None ] [] [].

(** The source file of the first run, and the heap once its parser has
    recorded a diagnostic through [error]. *)
Definition files_of_first_run : list (string * list string) :=
  [ ("main.pe"%string, [ "int a"%string; "int b"%string ]) ].

Definition heap_after_error : Heap :=
  mkHeap [ mkPEError (mkLocation 1 0 "main.pe" "int b") "error code str"
             "unexpected token" "error code hint" "E1" ]
         [] [] files_of_first_run.

(** ** The climbing loop *)

(** The precedence [nextPrecedence] gives a tag. *)
Definition operator_precedence (t : TokenType.t) : Precedence.t :=
  match dict_get precedenceMap t with
  | Some p => p
  | None => Precedence.pr_lowest
  end.

(** A chain [o1 x1 o2 x2 ...] of operators, each followed by an operand. *)
Fixpoint chain_tokens (pairs : list (Token * Token)) : list Token :=
  match pairs with
  | [] => []
  | (op, x) :: ps => op :: x :: chain_tokens ps
  end.

(** The tree that groups the chain to the left of [left]. *)
Fixpoint left_nested (left : Node) (pairs : list (Token * Token)) : Node :=
  match pairs with
  | [] => left
  | (op, x) :: ps =>
      left_nested (BinaryOperation left (keyword op) (Identifier (keyword x)))
                  ps
  end.

(** The token the parser stands on after the chain. *)
Fixpoint last_operand (cur : option Token) (pairs : list (Token * Token))
  : option Token :=
  match pairs with
  | [] => cur
  | (_, x) :: ps => last_operand (Some x) ps
  end.

(** The precedence [nextPrecedence] finds in a token list at a position. *)
Definition precedence_at (ts : list Token) (i : Z) : Precedence.t :=
  match nth_error ts (Z.to_nat i) with
  | Some t => operator_precedence (tk_type t)
  | None => Precedence.pr_lowest
  end.

(** What follows the chain does not continue it: nothing, or a token whose
    precedence is not above [p]. *)
Definition stops (p : Precedence.t) (rest : list Token) : Prop :=
  match rest with
  | [] => True
  | t :: _ => Precedence.gtb (operator_precedence (tk_type t)) p = false
  end.

(** An operator of precedence [q] followed by an identifier. *)
Definition same_precedence (q : Precedence.t) (pair : Token * Token) : Prop :=
  dict_get precedenceMap (tk_type (fst pair)) = Some q /\
  tk_type (snd pair) = TokenType.tk_identifier.

(** ** Kinds of tokens and of nodes *)

(** The tags on which the primary of [parseExpression] dispatches. *)
Definition starts_primary (ty : TokenType.t) : bool :=
  TokenType.eqb ty TokenType.tk_int || TokenType.eqb ty TokenType.tk_str
  || TokenType.eqb ty TokenType.tk_bool
  || TokenType.eqb ty TokenType.tk_identifier
  || TokenType.eqb ty TokenType.tk_l_paren
  || TokenType.eqb ty TokenType.tk_minus.

(** The keywords whose statement parsers are reserved. *)
Definition reserved_statement (ty : TokenType.t) : bool :=
  TokenType.eqb ty TokenType.tk_if || TokenType.eqb ty TokenType.tk_while
  || TokenType.eqb ty TokenType.tk_for || TokenType.eqb ty TokenType.tk_match
  || TokenType.eqb ty TokenType.tk_def.

(** The tags that [parseStatement] tests before it evaluates
    [TokenType.tk_ccode]. *)
Definition starts_statement (ty : TokenType.t) : bool :=
  TokenType.eqb ty TokenType.tk_identifier || list_contains LangTypes ty
  || reserved_statement ty.

(** The nodes of the six expression classes of ast.py. *)
Fixpoint is_expression (n : Node) : bool :=
  match n with
  | IntegerLiteral _ | StringLiteral _ | BoolLiteral _ | Identifier _ => true
  | BinaryOperation l _ r => is_expression l && is_expression r
  | PrefixExpression _ v => is_expression v
  | VariableDeclaration _ _ _ | VariableReassignment _ _ => false
  end.

(** The nodes without the literal [true]. *)
Fixpoint only_false_literals (n : Node) : bool :=
  match n with
  | BoolLiteral b => negb b
  | BinaryOperation l _ r => only_false_literals l && only_false_literals r
  | PrefixExpression _ v => only_false_literals v
  | VariableDeclaration _ _ (Some v) => only_false_literals v
  | VariableReassignment _ v => only_false_literals v
  | _ => true
  end.

(** What [parseExpression] builds: expression nodes without the literal
    [true]. *)
Definition built (n : Node) : Prop :=
  is_expression n = true /\ only_false_literals n = true.

(** Every value a computation returns satisfies [P]. *)
Definition returns {A} (P : A -> Prop) (m : M A) : Prop :=
  forall s h a s' h', m s h = Ok a s' h' -> P a.

(** A computation that raises no [SystemExit]. *)
Definition never_exits {A} (m : M A) : Prop :=
  forall s h e s' h', m s h = Raise e s' h' -> forall st, e <> SystemExit st.

(** The heap with one more diagnostic. *)
Definition with_error (h : Heap) (e : PEError) : Heap :=
  mkHeap (Parser_errors h ++ [e]) (Program_nodes h) (stdout h) (files h).

(** The chain [a - b + c - d], closed by a parenthesis, and a parser that
    stands on its first operand. *)
Definition chain_a : Token := tok "a" TokenType.tk_identifier.

Definition chain_b_c_d : list (Token * Token) :=
  [ (tok "-" TokenType.tk_minus, tok "b" TokenType.tk_identifier);
    (tok "+" TokenType.tk_plus, tok "c" TokenType.tk_identifier);
    (tok "-" TokenType.tk_minus, tok "d" TokenType.tk_identifier) ].

Definition chain_close : Token := tok ")" TokenType.tk_r_paren.

Definition parser_chain : Parser :=
  mkParser 1 "main.pe" ([chain_a] ++ chain_tokens chain_b_c_d ++ [chain_close])
           (Some chain_a).

(** ** The recursion budget *)

(** [m'] has every outcome that [m] has: it differs from [m] only where [m]
    ran out of budget. *)
Definition refines {A} (m m' : M A) : Prop :=
  forall s h, m s h <> OutOfFuel -> m' s h = m s h.

(** * Properties *)

Lemma cursor_ok_refl s : cursor_ok s s.
Proof. unfold cursor_ok; repeat split; lia. Qed.

Lemma cursor_ok_trans s1 s2 s3 :
  cursor_ok s1 s2 -> cursor_ok s2 s3 -> cursor_ok s1 s3.
Proof.
  unfold cursor_ok; intros (Ht & Hf & Hi) (Ht' & Hf' & Hi').
  rewrite Ht in Hi'. repeat split; try congruence; lia.
Qed.

Lemma frame_refl s h : frame s h s h.
Proof. unfold frame; auto using cursor_ok_refl. Qed.

Lemma frame_trans s1 h1 s2 h2 s3 h3 :
  frame s1 h1 s2 h2 -> frame s2 h2 s3 h3 -> frame s1 h1 s3 h3.
Proof.
  unfold frame; intros (Hc & He & Hn & Hf) (Hc' & He' & Hn' & Hf').
  split; [eapply cursor_ok_trans; eauto |].
  split; [congruence |]. split; congruence.
Qed.

Lemma framed_ret {A} (a : A) : framed (ret a).
Proof. intros s h; apply frame_refl. Qed.

Lemma framed_raise {A} e : framed (@raise A e).
Proof. intros s h; apply frame_refl. Qed.

Lemma framed_out_of_fuel {A} : framed (@out_of_fuel A).
Proof. intros s h; exact I. Qed.

Lemma framed_bind {A B} (m : M A) (k : A -> M B) :
  framed m -> (forall a, framed (k a)) -> framed (bind m k).
Proof.
  intros Hm Hk s h. unfold bind. specialize (Hm s h).
  destruct (m s h) as [a s1 h1 | e s1 h1 |]; simpl in *; auto.
  specialize (Hk a s1 h1).
  destruct (k a s1 h1); simpl in *; eauto using frame_trans.
Qed.

Lemma framed_get_self : framed get_self.
Proof. intros s h; apply frame_refl. Qed.

Lemma framed_get_heap : framed get_heap.
Proof. intros s h; apply frame_refl. Qed.

Lemma framed_getattr {A} (o : option A) : framed (getattr o).
Proof. destruct o; [apply framed_ret | apply framed_raise]. Qed.

Lemma framed_local {A} (o : option A) : framed (local o).
Proof. destruct o; [apply framed_ret | apply framed_raise]. Qed.

Lemma framed_getitem {A} (o : option A) : framed (getitem o).
Proof. destruct o; [apply framed_ret | apply framed_raise]. Qed.

Lemma framed_print o : framed (print o).
Proof. intros s h; simpl. unfold frame; auto using cursor_ok_refl. Qed.

Lemma framed_read_current_token : framed read_current_token.
Proof.
  unfold read_current_token.
  apply framed_bind; [apply framed_get_self | intros; apply framed_getattr].
Qed.

Lemma framed_advance : framed advance.
Proof.
  intros s h. unfold advance, bind, get_self.
  destruct (tk_index s >=? len (tokens s)) eqn:E; simpl.
  - apply frame_refl.
  - destruct (list_getitem (tokens s) (tk_index s)); simpl.
    + unfold frame, cursor_ok; simpl. repeat split; lia.
    + apply frame_refl.
Qed.

Lemma framed_nextToken : framed nextToken.
Proof.
  intros s h. unfold nextToken, bind, get_self.
  destruct (tk_index s <? len (tokens s)); simpl; [| apply frame_refl].
  destruct (list_getitem (tokens s) (tk_index s)); simpl; apply frame_refl.
Qed.

Create HintDb framed discriminated.
#[local] Hint Resolve framed_ret framed_raise framed_out_of_fuel
  framed_get_self framed_get_heap framed_getattr framed_local framed_getitem
  framed_print framed_read_current_token framed_advance framed_nextToken
  : framed.

(** Splits a computation along its binds and its tests. *)
Ltac framed_step :=
  match goal with
  | |- framed (bind _ _) => apply framed_bind; [| intros ]
  | |- framed (if ?b then _ else _) => destruct b
  | |- framed (match ?o with Some _ => _ | None => _ end) => destruct o
  | |- framed _ => solve [ auto with framed ]
  end.

Ltac framed_auto := repeat framed_step.

Lemma framed_expect t : framed (expect t).
Proof. unfold expect. framed_auto. Qed.

Lemma framed_nextPrecedence : framed nextPrecedence.
Proof. unfold nextPrecedence. framed_auto. Qed.

#[local] Hint Resolve framed_expect framed_nextPrecedence : framed.

Lemma framed_parseInteger : framed parseInteger.
Proof. unfold parseInteger. framed_auto. Qed.

Lemma framed_parseString : framed parseString.
Proof. unfold parseString. framed_auto. Qed.

Lemma framed_parseBool : framed parseBool.
Proof. unfold parseBool. framed_auto. Qed.

Lemma framed_parseIdentifier : framed parseIdentifier.
Proof. unfold parseIdentifier. framed_auto. Qed.

#[local] Hint Resolve framed_parseInteger framed_parseString framed_parseBool
  framed_parseIdentifier : framed.

Section Helpers.
Variable rec : Precedence.t -> M Node.
Hypothesis framed_rec : forall p, framed (rec p).

Lemma framed_parseBinaryOperation left :
  framed (parseBinaryOperation rec left).
Proof using framed_rec. unfold parseBinaryOperation. framed_auto. Qed.

Lemma framed_parsePrefixExpression : framed (parsePrefixExpression rec).
Proof using framed_rec. unfold parsePrefixExpression. framed_auto. Qed.

Lemma framed_parseGroupedExpression : framed (parseGroupedExpression rec).
Proof using framed_rec. unfold parseGroupedExpression. framed_auto. Qed.

Lemma framed_parsePrimary : framed (parsePrimary rec).
Proof using framed_rec.
  pose proof framed_parsePrefixExpression.
  pose proof framed_parseGroupedExpression.
  unfold parsePrimary. framed_auto.
Qed.
End Helpers.

Lemma framed_parseExpression_climb fuel :
  (forall p, framed (parseExpression fuel p)) /\
  (forall p left, framed (climb fuel p left)).
Proof.
  induction fuel as [| fuel [IHe IHc]]; split; intros; simpl;
    try apply framed_out_of_fuel.
  - apply framed_bind; [apply framed_parsePrimary; assumption | auto].
  - pose proof (framed_parseBinaryOperation _ IHe). framed_auto.
Qed.

Lemma framed_parseExpression fuel p : framed (parseExpression fuel p).
Proof. apply framed_parseExpression_climb. Qed.

Lemma framed_climb fuel p left : framed (climb fuel p left).
Proof. apply framed_parseExpression_climb. Qed.

#[local] Hint Resolve framed_parseExpression framed_climb : framed.

Lemma framed_parseVariableReassignment fuel :
  framed (parseVariableReassignment fuel).
Proof. unfold parseVariableReassignment. framed_auto. Qed.

Lemma framed_parseVariableDeclaration fuel :
  framed (parseVariableDeclaration fuel).
Proof. unfold parseVariableDeclaration. framed_auto. Qed.

#[local] Hint Resolve framed_parseVariableReassignment
  framed_parseVariableDeclaration : framed.

Lemma framed_getattr_None {A B} (k : A -> M B) :
  framed (bind (getattr None) k).
Proof. intros s h; apply frame_refl. Qed.

Lemma framed_parseStatement fuel : framed (parseStatement fuel).
Proof.
  unfold parseStatement, parseIf, parseWhile, parseFor, parseMatch,
    parseFunctionDeclaration, TokenType.tk_ccode.
  repeat first [ apply framed_getattr_None | framed_step ].
Qed.

Lemma frame_loop_frame s h s' h' : frame s h s' h' -> loop_frame s h s' h'.
Proof.
  intros (Hc & He & Hn & Hf). repeat split; try apply Hc; auto.
  exists []. rewrite app_nil_r. exact Hn.
Qed.

Lemma loop_frame_trans s1 h1 s2 h2 s3 h3 :
  loop_frame s1 h1 s2 h2 -> loop_frame s2 h2 s3 h3 -> loop_frame s1 h1 s3 h3.
Proof.
  intros (Hc & He & (l & Hn) & Hf) (Hc' & He' & (l' & Hn') & Hf').
  split; [eapply cursor_ok_trans; eauto |].
  split; [congruence |]. split; [| congruence].
  exists (l ++ l'). rewrite Hn', Hn. symmetry; apply app_assoc.
Qed.

Lemma parse_while_loop_frame n fuel :
  forall s h, outcome (loop_frame s h) (parse_while n fuel s h).
Proof.
  induction n as [| n IH]; intros s h; simpl; [exact I |].
  unfold bind at 1. unfold get_self.
  destruct (tk_index s <? len (tokens s)); [| apply frame_loop_frame, frame_refl].
  unfold bind at 1.
  pose proof (framed_parseStatement fuel s h) as Hs.
  destruct (parseStatement fuel s h) as [node s1 h1 | e s1 h1 |]; simpl in *;
    auto using frame_loop_frame.
  unfold bind at 1. unfold Program_nodes_append.
  set (h1' := mkHeap _ _ _ _).
  assert (Ha : loop_frame s h s1 h1').
  { destruct Hs as (Hc & He & Hn & Hf). repeat split; try apply Hc; auto.
    exists [node]. simpl. now rewrite Hn. }
  unfold bind at 1.
  pose proof (framed_advance s1 h1') as Hadv.
  destruct (advance s1 h1') as [[] s2 h2 | e s2 h2 |]; simpl in *; auto.
  - specialize (IH s2 h2).
    destruct (parse_while n fuel s2 h2); simpl in *; auto;
      eauto using loop_frame_trans, frame_loop_frame.
  - eauto using loop_frame_trans, frame_loop_frame.
Qed.

Lemma display_all_spec errs :
  forall s h,
    display_all errs s h
    = Ok tt s (with_stdout h (stdout h ++ map Displayed errs)).
Proof.
  induction errs as [| e errs IH]; intros s h; simpl.
  - unfold ret, with_stdout. rewrite app_nil_r. now destruct h.
  - unfold bind, print. rewrite IH. unfold with_stdout; simpl.
    now rewrite <- app_assoc.
Qed.

Lemma parse_loop_frame fuel :
  forall s h, outcome (loop_frame s h) (parse fuel s h).
Proof.
  intros s h. unfold parse. unfold bind at 1.
  pose proof (parse_while_loop_frame fuel fuel s h) as Hw.
  destruct (parse_while fuel fuel s h) as [[] s1 h1 | e s1 h1 |]; simpl in *;
    auto.
  unfold bind at 1. unfold get_heap.
  destruct (negb (len (Parser_errors h1) =? 0)); simpl; auto.
  unfold bind. rewrite display_all_spec. simpl.
  destruct Hw as (Hc & He & Hn & Hf). repeat split; try apply Hc; auto.
Qed.

Lemma parse_while_statements n fuel :
  forall s h s' h',
    parse_while n fuel s h = Ok tt s' h' ->
    exists stmts,
      Program_nodes h' = Program_nodes h ++ stmts /\
      statements_from fuel s h stmts s' h'.
Proof.
  induction n as [| n IH]; intros s h s' h' H; simpl in H; [discriminate |].
  unfold bind at 1 in H. unfold get_self in H.
  destruct (tk_index s <? len (tokens s)) eqn:E.
  - apply Z.ltb_lt in E.
    unfold bind at 1 in H.
    pose proof (framed_parseStatement fuel s h) as Hs.
    destruct (parseStatement fuel s h) as [node s1 h1 | |] eqn:Es;
      try discriminate.
    unfold bind at 1 in H. unfold Program_nodes_append in H.
    fold (append_node h1 node) in H.
    unfold bind at 1 in H.
    pose proof (framed_advance s1 (append_node h1 node)) as Hadv.
    destruct (advance s1 (append_node h1 node)) as [[] s2 h2 | |] eqn:Ea;
      try discriminate.
    destruct (IH _ _ _ _ H) as (rest & Hn & Hrest).
    exists (node :: rest). split.
    + simpl in Hs, Hadv.
      destruct Hs as (_ & _ & Hn1 & _). destruct Hadv as (_ & _ & Hn2 & _).
      rewrite Hn, Hn2. simpl. rewrite Hn1, <- app_assoc. reflexivity.
    + eapply statements_next; eauto.
  - apply Z.ltb_ge in E. inversion H; subst.
    exists []. split; [now rewrite app_nil_r | now constructor].
Qed.

(** ** The cursor *)

Lemma cursor_ok_keeps s s' :
  in_bounds s -> cursor_ok s s' ->
  tokens s' = tokens s /\ tk_index s <= tk_index s' /\ in_bounds s'.
Proof.
  unfold in_bounds, cursor_ok. intros Hb (Ht & _ & Hi).
  rewrite Ht. repeat split; auto; lia.
Qed.

Lemma framed_keeps_cursor {A} (m : M A) s h :
  in_bounds s -> framed m -> keeps_cursor s (m s h).
Proof.
  intros Hb Hm. specialize (Hm s h). unfold keeps_cursor.
  destruct (m s h); simpl in *; auto;
    apply cursor_ok_keeps; auto; apply Hm.
Qed.

Lemma loop_frame_keeps_cursor {A} (r : Res A) s h :
  in_bounds s -> outcome (loop_frame s h) r -> keeps_cursor s r.
Proof.
  intros Hb Hr. unfold keeps_cursor.
  destruct r; simpl in *; auto; apply cursor_ok_keeps; auto; apply Hr.
Qed.

Lemma list_getitem_nth_error {A} (l : list A) (i : Z) :
  0 <= i -> list_getitem l i = nth_error l (Z.to_nat i).
Proof.
  intros Hi. unfold list_getitem.
  destruct (0 <=? i) eqn:E; [reflexivity | apply Z.leb_gt in E; lia].
Qed.

Lemma nextToken_spec s h :
  0 <= tk_index s ->
  nextToken s h = Ok (nth_error (tokens s) (Z.to_nat (tk_index s))) s h.
Proof.
  intros Hi. unfold nextToken, bind, get_self, len.
  rewrite list_getitem_nth_error by assumption.
  destruct (tk_index s <? Z.of_nat (List.length (tokens s))) eqn:E.
  - apply Z.ltb_lt in E.
    destruct (nth_error (tokens s) (Z.to_nat (tk_index s))) eqn:N;
      [reflexivity |].
    apply nth_error_None in N. lia.
  - apply Z.ltb_ge in E.
    assert (N : nth_error (tokens s) (Z.to_nat (tk_index s)) = None)
      by (apply nth_error_None; lia).
    now rewrite N.
Qed.

Lemma Parser_new_in_bounds f ts h :
  outcome (fun s _ => in_bounds s /\ tokens s = ts) (Parser_new f ts h).
Proof.
  unfold Parser_new.
  pose proof (framed_advance (mkParser 0 f ts None) h) as H.
  destruct (advance (mkParser 0 f ts None) h); simpl in *; auto;
    destruct H as ((Ht & _ & Hi) & _); simpl in *;
    unfold in_bounds; rewrite Ht; unfold len in *; split; auto; lia.
Qed.

(** C10.  Every operation of the parser, from a state whose index is within
    0 and the length of the token list, leaves the token list as it is and
    the index within the same bounds and not smaller than before, whether it
    returns or raises; [nextToken] changes nothing and returns the token at
    the index when there is one and Python's None otherwise, never an
    [IndexError]; and the constructor establishes the bounds. *)
Theorem cursor_invariant (fuel : nat) (self : Parser) (h : Heap) :
  in_bounds self ->
  keeps_cursor self (advance self h) /\
  (forall t, keeps_cursor self (expect t self h)) /\
  nextToken self h
    = Ok (nth_error (tokens self) (Z.to_nat (tk_index self))) self h /\
  keeps_cursor self (nextPrecedence self h) /\
  (forall p, keeps_cursor self (parseExpression fuel p self h)) /\
  (forall p left, keeps_cursor self (climb fuel p left self h)) /\
  (forall left,
     keeps_cursor self
       (parseBinaryOperation (parseExpression fuel) left self h)) /\
  keeps_cursor self (parsePrefixExpression (parseExpression fuel) self h) /\
  keeps_cursor self (parseGroupedExpression (parseExpression fuel) self h) /\
  keeps_cursor self (parseVariableDeclaration fuel self h) /\
  keeps_cursor self (parseVariableReassignment fuel self h) /\
  keeps_cursor self (parseStatement fuel self h) /\
  (forall n, keeps_cursor self (parse_while n fuel self h)) /\
  keeps_cursor self (parse fuel self h) /\
  (forall f ts h0, outcome (fun s _ => in_bounds s) (Parser_new f ts h0)).
Proof.
  intros Hb.
  pose proof (framed_parseExpression fuel) as He.
  repeat match goal with |- _ /\ _ => split end; intros;
    try (apply framed_keeps_cursor; [assumption |];
         auto using framed_parseBinaryOperation, framed_parsePrefixExpression,
           framed_parseGroupedExpression, framed_parseStatement
           with framed; fail).
  - apply nextToken_spec, Hb.
  - eapply loop_frame_keeps_cursor; [assumption | apply parse_while_loop_frame].
  - eapply loop_frame_keeps_cursor; [assumption | apply parse_loop_frame].
  - pose proof (Parser_new_in_bounds f ts h0) as H.
    destruct (Parser_new f ts h0); simpl in *; tauto.
Qed.

(** [parse] in terms of the two lists of the classes.  Once its loop has
    exhausted the cursor: with [Parser.errors] empty, [parse] returns the
    Program node, and [Program.nodes] is the list as it was before the call
    followed by the statements of the call in the order of parsing; with
    [Parser.errors] not empty, every diagnostic in it is displayed, in
    order, and the call ends in [SystemExit(1)] instead of returning. *)
Theorem parse_failure_success_semantics
  (fuel : nat) (self self' : Parser) (h h' : Heap) :
  parse_while fuel fuel self h = Ok tt self' h' ->
  match Parser_errors h' with
  | [] =>
      parse fuel self h = Ok Program self' h' /\
      exists stmts,
        Program_nodes h' = Program_nodes h ++ stmts /\
        statements_from fuel self h stmts self' h'
  | _ :: _ =>
      parse fuel self h
      = Raise (SystemExit 1) self'
          (with_stdout h' (stdout h' ++ map Displayed (Parser_errors h')))
  end.
Proof.
  intros Hw.
  assert (Hp : parse fuel self h
               = if negb (len (Parser_errors h') =? 0)
                 then Raise (SystemExit 1) self'
                        (with_stdout h'
                           (stdout h' ++ map Displayed (Parser_errors h')))
                 else Ok Program self' h').
  { unfold parse. unfold bind at 1. rewrite Hw.
    unfold bind at 1. unfold get_heap.
    destruct (negb (len (Parser_errors h') =? 0)); [| reflexivity].
    unfold bind. now rewrite display_all_spec. }
  destruct (Parser_errors h') as [| e errs] eqn:E.
  - split; [exact Hp |]. eapply parse_while_statements; eassumption.
  - rewrite Hp. unfold len. simpl List.length. rewrite Nat2Z.inj_succ.
    destruct (Z.succ (Z.of_nat (List.length errs)) =? 0) eqn:Z0;
      [apply Z.eqb_eq in Z0; lia | reflexivity].
Qed.

(** ** Instances of the two theorems *)

Lemma cursor_invariant_witness :
  in_bounds parser_int_a_int_b /\
  keeps_cursor parser_int_a_int_b
    (parse 3 parser_int_a_int_b (fresh_heap [])).
Proof.
  assert (Hb : in_bounds parser_int_a_int_b)
    by (unfold in_bounds, len; simpl; lia).
  split; [exact Hb |].
  destruct (cursor_invariant 3 parser_int_a_int_b (fresh_heap []) Hb)
    as (_ & _ & _ & _ & _ & _ & _ & _ & _ & _ & _ & _ & _ & Hparse & _).
  exact Hparse.
Defined.

Lemma parse_failure_success_semantics_witness :
  parse 3 parser_if_while_for (fresh_heap [])
  = Ok Program parser_if_while_for_done (mkHeap [] [None; None] [] []) /\
  parse 3 parser_if_while_for (mkHeap [some_diagnostic] [] [] [])
  = Raise (SystemExit 1) parser_if_while_for_done
      (mkHeap [some_diagnostic] [None; None] [Displayed some_diagnostic] []).
Proof.
  split.
  - exact (proj1 (parse_failure_success_semantics 3
                    parser_if_while_for parser_if_while_for_done
                    (fresh_heap []) (mkHeap [] [None; None] [] []) eq_refl)).
  - exact (parse_failure_success_semantics 3
             parser_if_while_for parser_if_while_for_done
             (mkHeap [some_diagnostic] [] [] [])
             (mkHeap [some_diagnostic] [None; None] [] []) eq_refl).
Defined.

(** ** The expression engine *)

(** On operands that carry the tag the primary dispatches on ([tk_int] to
    [parseInteger]), the climbing loop groups a product under a sum on either
    side and groups a chain of one precedence to the left. *)
Lemma climbing_on_tk_int_operands (fuel : nat) :
  option_map Node_str
    (returned (run_expression (6 + fuel) "main.pe"
                 (tokens_1_plus_2_times_3 TokenType.tk_int) (fresh_heap [])))
  = Some (Some "(1 + (2 * 3))"%string) /\
  option_map Node_str
    (returned (run_expression (6 + fuel) "main.pe"
                 (tokens_1_times_2_plus_3 TokenType.tk_int) (fresh_heap [])))
  = Some (Some "((1 * 2) + 3)"%string) /\
  option_map Node_str
    (returned (run_expression (6 + fuel) "main.pe"
                 (tokens_1_minus_2_minus_3 TokenType.tk_int) (fresh_heap [])))
  = Some (Some "((1 - 2) - 3)"%string).
Proof. repeat split; reflexivity. Qed.

(** Through [parse], the same tokens are not an expression at all: a
    statement that starts with the tag [tk_int] is a declaration, named
    after the operator, and the run raises [AttributeError] where the
    declaration node would be constructed. *)
Lemma parse_on_tk_int_operands (fuel : nat) :
  raised (run (1 + fuel) "main.pe"
            (tokens_1_plus_2_times_3 TokenType.tk_int) (fresh_heap []))
  = Some AttributeError /\
  option_map Program_nodes
    (heap_after (run (1 + fuel) "main.pe"
                   (tokens_1_plus_2_times_3 TokenType.tk_int) (fresh_heap [])))
  = Some [].
Proof. split; reflexivity. Qed.

(** C1.  On the tokens of [1 + 2 * 3] and of [1 * 2 + 3], with the numerals
    tagged [integer] as tokens.py tags a literal, [parseExpression] reaches
    the branch that leaves [left] unbound and raises [UnboundLocalError]
    at the first use of [left]; [parse] raises [AttributeError] in
    [parseStatement]; no recursion budget makes either return a tree. *)
Theorem precedence_law_integer_literals (fuel : nat) :
  raised (run_expression (2 + fuel) "main.pe"
            (tokens_1_plus_2_times_3 TokenType.integer) (fresh_heap []))
  = Some UnboundLocalError /\
  raised (run_expression (2 + fuel) "main.pe"
            (tokens_1_times_2_plus_3 TokenType.integer) (fresh_heap []))
  = Some UnboundLocalError /\
  raised (run (1 + fuel) "main.pe"
            (tokens_1_plus_2_times_3 TokenType.integer) (fresh_heap []))
  = Some AttributeError /\
  returned (run_expression fuel "main.pe"
              (tokens_1_plus_2_times_3 TokenType.integer) (fresh_heap []))
  = None /\
  returned (run_expression fuel "main.pe"
              (tokens_1_times_2_plus_3 TokenType.integer) (fresh_heap []))
  = None /\
  returned (run fuel "main.pe"
              (tokens_1_plus_2_times_3 TokenType.integer) (fresh_heap []))
  = None.
Proof.
  repeat split; try reflexivity;
    destruct fuel as [| [| fuel]]; reflexivity.
Qed.

(** C2.  On the tokens of [1 - 2 - 3], with the numerals tagged [integer],
    [parseExpression] raises [UnboundLocalError] and [parse] raises
    [AttributeError]; no recursion budget makes either return a tree. *)
Theorem left_associativity_integer_literals (fuel : nat) :
  raised (run_expression (2 + fuel) "main.pe"
            (tokens_1_minus_2_minus_3 TokenType.integer) (fresh_heap []))
  = Some UnboundLocalError /\
  raised (run (1 + fuel) "main.pe"
            (tokens_1_minus_2_minus_3 TokenType.integer) (fresh_heap []))
  = Some AttributeError /\
  returned (run_expression fuel "main.pe"
              (tokens_1_minus_2_minus_3 TokenType.integer) (fresh_heap []))
  = None /\
  returned (run fuel "main.pe"
              (tokens_1_minus_2_minus_3 TokenType.integer) (fresh_heap []))
  = None.
Proof.
  repeat split; try reflexivity;
    destruct fuel as [| [| fuel]]; reflexivity.
Qed.

(** ** Equality of tags *)

Lemma TokenType_eqb_eq (a b : TokenType.t) :
  TokenType.eqb a b = true <-> a = b.
Proof.
  split.
  - destruct a; destruct b; intro H; first [reflexivity | discriminate H].
  - intros ->. apply Z.eqb_refl.
Qed.

Lemma TokenType_eqb_neq (a b : TokenType.t) :
  TokenType.eqb a b = false <-> a <> b.
Proof.
  rewrite <- TokenType_eqb_eq. destruct (TokenType.eqb a b); split;
    congruence.
Qed.

(** ** Calls that cannot return *)

Lemma returned_bind_right {A B} (m : M A) (k : A -> M B) s h :
  (forall a s' h', returned (k a s' h') = None) ->
  returned (bind m k s h) = None.
Proof.
  intros Hk. unfold bind. destruct (m s h); simpl; auto.
Qed.

Lemma returned_bind_left {A B} (m : M A) (k : A -> M B) s h :
  returned (m s h) = None -> returned (bind m k s h) = None.
Proof.
  unfold bind. destruct (m s h); simpl; [discriminate | auto | auto].
Qed.

(** [parseVariableReassignment] never returns: whatever the tokens, it ends
    in the evaluation of [Precedence.pr_lowestr], if not before. *)
Lemma parseVariableReassignment_never_returns fuel s h :
  returned (parseVariableReassignment fuel s h) = None.
Proof.
  unfold parseVariableReassignment.
  apply returned_bind_right; intros cur s1 h1.
  apply returned_bind_right; intros [] s2 h2.
  apply returned_bind_right; intros [] s3 h3.
  reflexivity.
Qed.

(** A statement that starts with an identifier never returns a node, be the
    next token an assignment operator or not. *)
Lemma parseStatement_identifier_never_returns fuel s h t :
  current_token s = Some t ->
  tk_type t = TokenType.tk_identifier ->
  returned (parseStatement fuel s h) = None.
Proof.
  intros Hc Ht. unfold parseStatement.
  unfold bind at 1. unfold read_current_token at 1.
  unfold bind at 1. unfold get_self. rewrite Hc. simpl.
  rewrite Ht. simpl.
  apply returned_bind_right; intros nt s1 h1.
  apply returned_bind_right; intros [] s2 h2.
  apply returned_bind_left, parseVariableReassignment_never_returns.
Qed.

(** C3.  The statement [x + y] starts with an identifier whose next token is
    not an assignment operator.  The engine alone parses it to the tree
    rendered [(x + y)]; [parseStatement] parses that expression, drops it,
    goes on into [parseVariableReassignment] and raises [AttributeError].
    [parseStatement] on [x = 5 + 1], where the next token is the assignment
    operator, raises [AttributeError] too: neither returns a node. *)
Theorem identifier_statement_dispatch (fuel : nat) (literal : TokenType.t) :
  option_map Node_str
    (returned (run_expression (4 + fuel) "main.pe" tokens_x_plus_y
                 (fresh_heap [])))
  = Some (Some "(x + y)"%string) /\
  raised (run_statement (4 + fuel) "main.pe" tokens_x_plus_y (fresh_heap []))
  = Some AttributeError /\
  returned (run_statement fuel "main.pe" tokens_x_plus_y (fresh_heap []))
  = None /\
  raised (run_statement fuel "main.pe" (tokens_x_assign_5_plus_1 literal)
            (fresh_heap []))
  = Some AttributeError.
Proof.
  repeat split; try reflexivity.
  eapply parseStatement_identifier_never_returns; reflexivity.
Qed.

(** C4.  On the tokens of [x = 5 + 1], whatever the tag of the numerals,
    [parseVariableReassignment] consumes the identifier and the operator and
    then raises [AttributeError] on [Precedence.pr_lowestr], before the
    right-hand side is parsed; the statement and the whole run raise it with
    it, and no node is appended to the program. *)
Theorem reassignment_scenario (fuel : nat) (literal : TokenType.t) :
  raised (parseVariableReassignment fuel
            (mkParser 1 "main.pe" (tokens_x_assign_5_plus_1 literal)
                      (Some (tok "x" TokenType.tk_identifier)))
            (fresh_heap []))
  = Some AttributeError /\
  raised (run_statement fuel "main.pe" (tokens_x_assign_5_plus_1 literal)
            (fresh_heap []))
  = Some AttributeError /\
  raised (run (1 + fuel) "main.pe" (tokens_x_assign_5_plus_1 literal)
            (fresh_heap []))
  = Some AttributeError /\
  option_map Program_nodes
    (heap_after (run (1 + fuel) "main.pe" (tokens_x_assign_5_plus_1 literal)
                   (fresh_heap [])))
  = Some [].
Proof. repeat split; reflexivity. Qed.

(** ** Single steps of the cursor *)

Lemma advance_spec s h t :
  0 <= tk_index s ->
  nth_error (tokens s) (Z.to_nat (tk_index s)) = Some t ->
  advance s h
  = Ok tt (mkParser (tk_index s + 1) (filename s) (tokens s) (Some t)) h.
Proof.
  intros Hi Hn. unfold advance, bind, get_self.
  assert (Hlt : tk_index s < len (tokens s)).
  { assert (Hsome : nth_error (tokens s) (Z.to_nat (tk_index s)) <> None)
      by congruence.
    apply nth_error_Some in Hsome. unfold len. lia. }
  destruct (tk_index s >=? len (tokens s)) eqn:E;
    [apply Z.geb_le in E; lia |].
  rewrite list_getitem_nth_error, Hn by assumption. reflexivity.
Qed.

Lemma advance_at_end s h :
  len (tokens s) <= tk_index s -> advance s h = Ok tt s h.
Proof.
  intros Hi. unfold advance, bind, get_self.
  destruct (tk_index s >=? len (tokens s)) eqn:E; [reflexivity |].
  rewrite Z.geb_leb in E. apply Z.leb_gt in E. lia.
Qed.

Lemma nextToken_at_end s h :
  len (tokens s) <= tk_index s -> nextToken s h = Ok None s h.
Proof.
  intros Hi. unfold nextToken, bind, get_self.
  destruct (tk_index s <? len (tokens s)) eqn:E; [| reflexivity].
  apply Z.ltb_lt in E. lia.
Qed.

(** With a next token, [expect] is [advance], whatever tag was expected and
    whatever tag is there: a mismatch changes nothing. *)
Lemma expect_is_advance t s h nx :
  0 <= tk_index s ->
  nth_error (tokens s) (Z.to_nat (tk_index s)) = Some nx ->
  expect t s h = advance s h.
Proof.
  intros Hi Hn. unfold expect. unfold bind at 1.
  rewrite nextToken_spec, Hn by assumption.
  unfold bind at 1. simpl.
  destruct (negb (TokenType.eqb (tk_type nx) t)); reflexivity.
Qed.

(** No call of [expect] changes the diagnostics, returning or raising. *)
Lemma expect_records_nothing t s h :
  outcome (fun _ h' => Parser_errors h' = Parser_errors h) (expect t s h).
Proof.
  pose proof (framed_expect t s h) as H.
  destruct (expect t s h); simpl in *; auto; apply H.
Qed.

(** ** Declarations *)

(** [parseVariableDeclaration] never returns: each of its two [return]s
    evaluates [ast.VariableDeclaration], if the call has not raised
    before. *)
Lemma parseVariableDeclaration_never_returns fuel s h :
  returned (parseVariableDeclaration fuel s h) = None.
Proof.
  unfold parseVariableDeclaration.
  apply returned_bind_right; intros varType s1 h1.
  apply returned_bind_right; intros [] s2 h2.
  apply returned_bind_right; intros cur s3 h3.
  apply returned_bind_right; intros nt s4 h4.
  destruct (match nt with
            | Some t => negb (TokenType.eqb (tk_type t) TokenType.tk_assign)
            | None => false
            end); [reflexivity |].
  apply returned_bind_right; intros [] s5 h5.
  apply returned_bind_right; intros [] s6 h6.
  apply returned_bind_right; intros value s7 h7.
  reflexivity.
Qed.

(** The early return of [parseVariableDeclaration]: a token follows the name
    and is not the assignment operator.  The parser has moved onto the name,
    whatever its tag, when the construction of the node raises. *)
Lemma parseVariableDeclaration_next_not_assign fuel s h ty nm nx :
  0 <= tk_index s ->
  current_token s = Some ty ->
  nth_error (tokens s) (Z.to_nat (tk_index s)) = Some nm ->
  nth_error (tokens s) (Z.to_nat (tk_index s + 1)) = Some nx ->
  tk_type nx <> TokenType.tk_assign ->
  parseVariableDeclaration fuel s h
  = Raise AttributeError
      (mkParser (tk_index s + 1) (filename s) (tokens s) (Some nm)) h.
Proof.
  intros Hi Hc Hnm Hnx Hty. unfold parseVariableDeclaration.
  unfold bind at 1. unfold read_current_token at 1.
  unfold bind at 1. unfold get_self at 1. rewrite Hc. simpl.
  unfold bind at 1.
  rewrite (expect_is_advance _ _ _ nm), (advance_spec _ _ nm) by assumption.
  unfold bind at 1. unfold read_current_token, bind at 1, get_self. simpl.
  unfold bind at 1. rewrite nextToken_spec by (simpl; lia). simpl.
  rewrite Hnx. apply TokenType_eqb_neq in Hty. rewrite Hty. reflexivity.
Qed.


(** The name in the place of the last token, tagged as a literal: the call
    does not stop at the name but parses it as an initializer, which prints
    the two lines of the last branch of [parseExpression] and raises
    [UnboundLocalError]. *)
Lemma parseVariableDeclaration_parses_last_token (fuel : nat) :
  raised (run_statement (2 + fuel) "main.pe"
            [ tok "int" TokenType.tk_int; tok "5" TokenType.integer ]
            (fresh_heap []))
  = Some UnboundLocalError /\
  option_map stdout
    (heap_after (run_statement (2 + fuel) "main.pe"
                   [ tok "int" TokenType.tk_int; tok "5" TokenType.integer ]
                   (fresh_heap [])))
  = Some [ Printed "Error: "; PrintedType TokenType.integer ].
Proof. split; reflexivity. Qed.

(** C5.  No declaration returns a node.  On the tokens of [int x], where the
    name is the last token, the statement and the whole run raise
    [AttributeError] and nothing is added to the program; on [int x if],
    where a token that is not the assignment operator follows the name, the
    statement raises [AttributeError] too; and from no state and with no
    budget does [parseVariableDeclaration] return. *)
Theorem uninitialized_declaration_name_last (fuel : nat) :
  raised (run_statement (2 + fuel) "main.pe" tokens_int_x (fresh_heap []))
  = Some AttributeError /\
  raised (run (2 + fuel) "main.pe" tokens_int_x (fresh_heap []))
  = Some AttributeError /\
  option_map Program_nodes
    (heap_after (run (2 + fuel) "main.pe" tokens_int_x (fresh_heap [])))
  = Some [] /\
  raised (run_statement fuel "main.pe" tokens_int_x_if (fresh_heap []))
  = Some AttributeError /\
  returned (run_statement fuel "main.pe" tokens_int_x (fresh_heap []))
  = None /\
  (forall s h, returned (parseVariableDeclaration fuel s h) = None).
Proof.
  repeat split; try reflexivity.
  - destruct fuel as [| [| fuel]]; reflexivity.
  - intros s h. apply parseVariableDeclaration_never_returns.
Qed.

(** C6.  The parser stands on [int] and the next token is the operator
    [=].  [expect(TokenType.tk_identifier)] returns normally, with the parser
    moved onto the operator and the heap, diagnostics included, exactly as
    it was. *)
Theorem expect_mismatch_is_silent (h : Heap) :
  expect TokenType.tk_identifier
    (mkParser 1 "main.pe" tokens_int_assign_5
              (Some (tok "int" TokenType.tk_int))) h
  = Ok tt
      (mkParser 2 "main.pe" tokens_int_assign_5
                (Some (tok "=" TokenType.tk_assign))) h.
Proof. reflexivity. Qed.

(** ** Termination *)

(** A parser that stands on a minus sign at the end of the tokens: the prefix
    branch advances (to no effect) and calls [parseExpression] again on the
    same token.  No budget suffices. *)
Lemma prefix_at_end_diverges fuel :
  forall p s h t,
    current_token s = Some t ->
    tk_type t = TokenType.tk_minus ->
    len (tokens s) <= tk_index s ->
    parseExpression fuel p s h = OutOfFuel.
Proof.
  induction fuel as [| fuel IH]; intros p s h t Hc Ht Hend; [reflexivity |].
  simpl. unfold bind at 1. unfold parsePrimary.
  unfold bind at 1. unfold read_current_token at 1.
  unfold bind at 1. unfold get_self at 1. rewrite Hc. simpl getattr.
  unfold ret at 1. rewrite Ht. simpl.
  unfold bind at 1. unfold parsePrefixExpression.
  unfold bind at 1. unfold read_current_token at 1.
  unfold bind at 1. unfold get_self at 1. rewrite Hc. simpl getattr.
  unfold ret at 1.
  unfold bind at 1. rewrite advance_at_end by assumption.
  unfold bind at 1. rewrite (IH _ _ _ t) by assumption.
  reflexivity.
Qed.

(** The same for an opening parenthesis at the end of the tokens. *)
Lemma group_at_end_diverges fuel :
  forall p s h t,
    current_token s = Some t ->
    tk_type t = TokenType.tk_l_paren ->
    len (tokens s) <= tk_index s ->
    parseExpression fuel p s h = OutOfFuel.
Proof.
  induction fuel as [| fuel IH]; intros p s h t Hc Ht Hend; [reflexivity |].
  simpl. unfold bind at 1. unfold parsePrimary.
  unfold bind at 1. unfold read_current_token at 1.
  unfold bind at 1. unfold get_self at 1. rewrite Hc. simpl getattr.
  unfold ret at 1. rewrite Ht. simpl.
  unfold bind at 1. unfold parseGroupedExpression.
  unfold bind at 1. rewrite advance_at_end by assumption.
  unfold bind at 1. rewrite (IH _ _ _ t) by assumption.
  reflexivity.
Qed.

(** Primary and lookahead of a parser that stands on an identifier. *)
Lemma parsePrimary_identifier rec s h x :
  current_token s = Some x ->
  tk_type x = TokenType.tk_identifier ->
  parsePrimary rec s h = Ok (Some (Identifier (keyword x))) s h.
Proof.
  intros Hc Ht. unfold parsePrimary.
  unfold bind at 1. unfold read_current_token at 1.
  unfold bind at 1. unfold get_self at 1. rewrite Hc. simpl getattr.
  unfold ret at 1. rewrite Ht. simpl.
  unfold bind at 1. unfold parseIdentifier, read_current_token.
  unfold bind at 1. unfold bind at 1. unfold get_self. rewrite Hc.
  reflexivity.
Qed.

Lemma nextPrecedence_spec s h t :
  0 <= tk_index s ->
  nth_error (tokens s) (Z.to_nat (tk_index s)) = Some t ->
  nextPrecedence s h
  = Ok (match dict_get precedenceMap (tk_type t) with
        | Some p => p
        | None => Precedence.pr_lowest
        end) s h.
Proof.
  intros Hi Hn. unfold nextPrecedence. unfold bind at 1.
  rewrite nextToken_spec, Hn by assumption.
  destruct (dict_get precedenceMap (tk_type t)); reflexivity.
Qed.

(** An expression [x -] whose minus sign is the last token: the loop takes
    the minus sign as a binary operator, and its right-hand side is parsed
    with the parser still on the minus sign. *)
Lemma expression_with_trailing_minus fuel s h x m p :
  0 <= tk_index s ->
  current_token s = Some x ->
  tk_type x = TokenType.tk_identifier ->
  nth_error (tokens s) (Z.to_nat (tk_index s)) = Some m ->
  tk_type m = TokenType.tk_minus ->
  tk_index s + 1 = len (tokens s) ->
  Precedence.gtb Precedence.pr_sum p = true ->
  parseExpression fuel p s h = OutOfFuel.
Proof.
  intros Hi Hc Hx Hm Hmt Hlast Hp.
  destruct fuel as [| fuel]; [reflexivity |].
  simpl parseExpression. unfold bind at 1.
  rewrite (parsePrimary_identifier _ _ _ x) by assumption.
  destruct fuel as [| fuel]; [reflexivity |].
  simpl climb. unfold bind at 1.
  rewrite (nextPrecedence_spec _ _ m) by assumption.
  rewrite Hmt.
  change (dict_get precedenceMap TokenType.tk_minus)
    with (Some Precedence.pr_sum).
  cbv iota. rewrite Hp.
  unfold bind at 1. rewrite (advance_spec _ _ m) by assumption.
  set (s' := mkParser _ _ _ _).
  assert (Hend : len (tokens s') <= tk_index s') by (simpl; lia).
  unfold bind at 1. simpl local. unfold ret at 1.
  unfold bind at 1. unfold parseBinaryOperation.
  unfold bind at 1. unfold read_current_token at 1.
  unfold bind at 1. unfold get_self at 1. simpl getattr. unfold ret at 1.
  rewrite Hmt.
  change (dict_get precedenceMap TokenType.tk_minus)
    with (Some Precedence.pr_sum).
  unfold bind at 1. simpl getitem. unfold ret at 1.
  unfold bind at 1. unfold read_current_token at 1.
  unfold bind at 1. unfold get_self at 1. simpl getattr. unfold ret at 1.
  unfold bind at 1. rewrite advance_at_end by assumption.
  unfold bind at 1.
  rewrite (prefix_at_end_diverges _ _ _ _ m) by (assumption || reflexivity).
  reflexivity.
Qed.

(** The statement, and the loop of [parse], on such an expression. *)
Lemma statement_with_trailing_minus fuel s h x m :
  0 <= tk_index s ->
  current_token s = Some x ->
  tk_type x = TokenType.tk_identifier ->
  nth_error (tokens s) (Z.to_nat (tk_index s)) = Some m ->
  tk_type m = TokenType.tk_minus ->
  tk_index s + 1 = len (tokens s) ->
  parseStatement fuel s h = OutOfFuel.
Proof.
  intros Hi Hc Hx Hm Hmt Hlast. unfold parseStatement.
  unfold bind at 1. unfold read_current_token at 1.
  unfold bind at 1. unfold get_self at 1. rewrite Hc. simpl getattr.
  unfold ret at 1. rewrite Hx. simpl.
  unfold bind at 1. rewrite nextToken_spec, Hm by assumption.
  rewrite Hmt. simpl.
  unfold bind at 1. unfold bind at 1.
  rewrite (expression_with_trailing_minus _ _ _ x m) by
    (assumption || reflexivity).
  reflexivity.
Qed.

Lemma parse_with_trailing_minus fuel s h x m :
  0 <= tk_index s ->
  current_token s = Some x ->
  tk_type x = TokenType.tk_identifier ->
  nth_error (tokens s) (Z.to_nat (tk_index s)) = Some m ->
  tk_type m = TokenType.tk_minus ->
  tk_index s + 1 = len (tokens s) ->
  parse fuel s h = OutOfFuel.
Proof.
  intros Hi Hc Hx Hm Hmt Hlast. unfold parse. unfold bind at 1.
  destruct fuel as [| fuel]; [reflexivity |].
  simpl parse_while. unfold bind at 1. unfold get_self at 1.
  destruct (tk_index s <? len (tokens s)) eqn:E;
    [| apply Z.ltb_ge in E; lia].
  unfold bind at 1.
  rewrite (statement_with_trailing_minus _ _ _ x m) by assumption.
  reflexivity.
Qed.

(** C8.  On the two tokens of [x -] the run has no outcome, whatever the
    budget: the statement is parsed as an expression, the loop advances onto
    the minus sign, [parseBinaryOperation] advances at the end of the tokens
    to no effect, and the right-hand side is parsed on the minus sign again
    and again. *)
Theorem trailing_operator_never_terminates (fuel : nat) :
  run fuel "main.pe" tokens_x_minus (fresh_heap []) = OutOfFuel.
Proof.
  unfold run.
  change (Parser_new "main.pe" tokens_x_minus (fresh_heap []))
    with (Ok tt (mkParser 1 "main.pe" tokens_x_minus
                   (Some (tok "x" TokenType.tk_identifier)))
             (fresh_heap [])).
  eapply parse_with_trailing_minus; try reflexivity.
  simpl; lia.
Qed.

(** ** Two runs in one interpreter *)

(** C9.  A run over [def match def] in a fresh interpreter leaves a program
    of two statements.  The same run after a run over [if while for], with a
    parser and a program node of its own, leaves a program of four: the two
    statements of the first run and its own. *)
Theorem second_run_depends_on_first (fuel : nat) :
  run (3 + fuel) "a.pe" tokens_if_while_for (fresh_heap [])
  = Ok Program parser_if_while_for_done heap_after_first_run /\
  run (3 + fuel) "b.pe" tokens_def_match_def heap_after_first_run
  = Ok Program parser_def_match_def_done
       (mkHeap [] [ None; None; None; None ] [] []) /\
  run (3 + fuel) "b.pe" tokens_def_match_def (fresh_heap [])
  = Ok Program parser_def_match_def_done (mkHeap [] [ None; None ] [] []).
Proof. repeat split; reflexivity. Qed.

(** The list of diagnostics is shared in the same way: a diagnostic that one
    parser records through [error] makes the [parse] of another parser, over
    tokens of its own, end in [SystemExit(1)]. *)
Lemma diagnostic_of_one_parser_fails_another (fuel : nat) :
  error "unexpected token" "E1" parser_int_a_int_b
    (fresh_heap files_of_first_run)
  = Ok tt parser_int_a_int_b heap_after_error /\
  raised (run (3 + fuel) "b.pe" tokens_def_match_def heap_after_error)
  = Some (SystemExit 1) /\
  returned (run (3 + fuel) "b.pe" tokens_def_match_def
              (fresh_heap files_of_first_run))
  = Some Program.
Proof. repeat split; reflexivity. Qed.

(** C7.  What [parse] does after its loop depends on the lists of the
    classes, not on the run.  A run over [def match def] records no
    diagnostic; in a fresh interpreter it returns the program of its two
    statements.  Once another parser has recorded a diagnostic through
    [error], the same run displays that diagnostic and ends in
    [SystemExit(1)], with the list of diagnostics as it found it.  After a
    run of another parser over [if while for], the same run returns a
    program of four statements, of which the first two are not its own. *)
Theorem parse_outcome_depends_on_class_lists (fuel : nat) :
  run (3 + fuel) "b.pe" tokens_def_match_def (fresh_heap files_of_first_run)
  = Ok Program parser_def_match_def_done
       (mkHeap [] [ None; None ] [] files_of_first_run) /\
  error "unexpected token" "E1" parser_int_a_int_b
    (fresh_heap files_of_first_run)
  = Ok tt parser_int_a_int_b heap_after_error /\
  run (3 + fuel) "b.pe" tokens_def_match_def heap_after_error
  = Raise (SystemExit 1) parser_def_match_def_done
      (mkHeap (Parser_errors heap_after_error) [ None; None ]
              (map Displayed (Parser_errors heap_after_error))
              files_of_first_run) /\
  run (3 + fuel) "a.pe" tokens_if_while_for (fresh_heap [])
  = Ok Program parser_if_while_for_done heap_after_first_run /\
  run (3 + fuel) "b.pe" tokens_def_match_def heap_after_first_run
  = Ok Program parser_def_match_def_done
       (mkHeap [] [ None; None; None; None ] [] []).
Proof. repeat split; reflexivity. Qed.

(** ** The climbing loop on identifiers *)

(** Identifiers are operands whose tag the primary does dispatch on.  For
    every two operators of the table, [x o1 y o2 z] groups to the right
    exactly when the second operator has the strictly greater precedence,
    and to the left otherwise, equal precedences included. *)
Lemma climbing_on_identifiers
  (fuel : nat) (kx ky kz k1 k2 : string) (o1 o2 : TokenType.t) (h : Heap) :
  In o1 (map fst precedenceMap) ->
  In o2 (map fst precedenceMap) ->
  returned
    (run_expression (6 + fuel) "main.pe"
       [ tok kx TokenType.tk_identifier; tok k1 o1;
         tok ky TokenType.tk_identifier; tok k2 o2;
         tok kz TokenType.tk_identifier ] h)
  = Some
      (if Precedence.gtb (operator_precedence o2) (operator_precedence o1)
       then BinaryOperation (Identifier kx) k1
              (BinaryOperation (Identifier ky) k2 (Identifier kz))
       else BinaryOperation
              (BinaryOperation (Identifier kx) k1 (Identifier ky))
              k2 (Identifier kz)).
Proof.
  intros H1 H2. simpl in H1, H2.
  repeat match goal with H : _ \/ _ |- _ => destruct H as [H | H] end;
    try contradiction; subst; reflexivity.
Qed.

(** ** Chains of one precedence *)

Lemma nextPrecedence_at s h :
  0 <= tk_index s ->
  nextPrecedence s h = Ok (precedence_at (tokens s) (tk_index s)) s h.
Proof.
  intros Hi. unfold nextPrecedence, precedence_at, operator_precedence.
  unfold bind at 1. rewrite nextToken_spec by assumption.
  destruct (nth_error (tokens s) (Z.to_nat (tk_index s))) as [t |];
    [| reflexivity].
  destruct (dict_get precedenceMap (tk_type t)); reflexivity.
Qed.

Lemma nth_error_at_len {A} (pre : list A) (x : A) (post : list A) :
  nth_error (pre ++ x :: post) (Z.to_nat (len pre)) = Some x.
Proof.
  unfold len. rewrite Nat2Z.id, nth_error_app2, Nat.sub_diag by lia.
  reflexivity.
Qed.

Lemma nth_error_at_len_nil {A} (pre : list A) :
  nth_error (pre ++ []) (Z.to_nat (len pre)) = None.
Proof.
  unfold len. rewrite Nat2Z.id, app_nil_r. apply nth_error_None. lia.
Qed.

Lemma len_app {A} (l1 l2 : list A) : len (l1 ++ l2) = len l1 + len l2.
Proof. unfold len. rewrite length_app. lia. Qed.

Lemma len_cons {A} (a : A) (l : list A) : len (a :: l) = 1 + len l.
Proof. unfold len. simpl List.length. lia. Qed.

Lemma len_nonneg {A} (l : list A) : 0 <= len l.
Proof. unfold len. lia. Qed.

Lemma gtb_irrefl q : Precedence.gtb q q = false.
Proof. unfold Precedence.gtb. rewrite Z.gtb_ltb. apply Z.ltb_irrefl. Qed.

Lemma gtb_below q p r :
  Precedence.gtb q p = true -> Precedence.gtb r p = false ->
  Precedence.gtb r q = false.
Proof.
  unfold Precedence.gtb. rewrite !Z.gtb_ltb, Z.ltb_lt, !Z.ltb_ge. lia.
Qed.

(** After an operand of the chain, the lookahead is not above [q]. *)
Lemma precedence_after_operand pre ps rest q p :
  Forall (same_precedence q) ps ->
  Precedence.gtb q p = true ->
  stops p rest ->
  Precedence.gtb (precedence_at (pre ++ chain_tokens ps ++ rest) (len pre)) q
  = false.
Proof.
  intros Hps Hq Hrest. unfold precedence_at.
  destruct ps as [| [op x] ps]; simpl.
  - destruct rest as [| t rest].
    + rewrite nth_error_at_len_nil. destruct q; reflexivity.
    + rewrite nth_error_at_len. eapply gtb_below; eassumption.
  - rewrite nth_error_at_len. inversion Hps as [| ? ? [Hop _] _]; subst.
    change (dict_get precedenceMap (tk_type op) = Some q) in Hop.
    unfold operator_precedence. rewrite Hop. apply gtb_irrefl.
Qed.

(** One unfolding of the two recursive functions. *)
Lemma parseExpression_S fuel p :
  parseExpression (S fuel) p
  = (left <- parsePrimary (parseExpression fuel) ;; climb fuel p left).
Proof. reflexivity. Qed.

Lemma climb_S fuel p left :
  climb (S fuel) p left
  = (np <- nextPrecedence ;;
     if Precedence.gtb np p then
       advance ;;;
       l <- local left ;;
       left' <- parseBinaryOperation (parseExpression fuel) l ;;
       climb fuel p (Some left')
     else local left).
Proof. reflexivity. Qed.

(** An identifier whose lookahead is not above the threshold is the whole
    expression. *)
Lemma parseExpression_operand fuel s h x q :
  0 <= tk_index s ->
  current_token s = Some x ->
  tk_type x = TokenType.tk_identifier ->
  Precedence.gtb (precedence_at (tokens s) (tk_index s)) q = false ->
  parseExpression (S (S fuel)) q s h = Ok (Identifier (keyword x)) s h.
Proof.
  intros Hi Hc Hx Hstop.
  rewrite parseExpression_S. unfold bind at 1.
  rewrite (parsePrimary_identifier _ _ _ x) by assumption.
  rewrite climb_S. unfold bind at 1.
  rewrite nextPrecedence_at, Hstop by assumption.
  reflexivity.
Qed.

(** The loop of [parseExpression] on a chain of one precedence [q] above
    the threshold [p]: it consumes the whole chain and returns the tree
    grouped to the left. *)
Lemma climb_left_chain :
  forall pairs fuel pre rest s h left q p,
    tokens s = pre ++ chain_tokens pairs ++ rest ->
    tk_index s = len pre ->
    Forall (same_precedence q) pairs ->
    Precedence.gtb q p = true ->
    stops p rest ->
    climb (List.length pairs + 2 + fuel) p (Some left) s h
    = Ok (left_nested left pairs)
         (mkParser (tk_index s + 2 * len pairs) (filename s) (tokens s)
                   (last_operand (current_token s) pairs)) h.
Proof.
  induction pairs as [| [op x] ps IH];
    intros fuel pre rest s h left q p Hts Hidx Hps Hq Hrest.
  - assert (Hstop : Precedence.gtb (precedence_at (tokens s) (tk_index s)) p
                   = false).
    { rewrite Hts, Hidx. unfold precedence_at. simpl chain_tokens.
      destruct rest as [| t rest]; simpl app.
      - rewrite nth_error_at_len_nil. destruct p; reflexivity.
      - rewrite nth_error_at_len. exact Hrest. }
    change (List.length (@nil (Token * Token)) + 2 + fuel)%nat
      with (S (S fuel)).
    rewrite climb_S. unfold bind at 1.
    rewrite nextPrecedence_at by (rewrite Hidx; apply len_nonneg).
    rewrite Hstop. simpl local. unfold ret. f_equal.
    destruct s; simpl. f_equal. unfold len; simpl; lia.
  - inversion Hps as [| ? ? [Hop Hx] Hps']; subst.
    change (dict_get precedenceMap (tk_type op) = Some q) in Hop.
    change (tk_type x = TokenType.tk_identifier) in Hx.
    assert (Hi0 : 0 <= tk_index s) by (rewrite Hidx; apply len_nonneg).
    assert (Hnop : nth_error (tokens s) (Z.to_nat (tk_index s)) = Some op).
    { rewrite Hts, Hidx. simpl chain_tokens. apply nth_error_at_len. }
    assert (Hnx : nth_error (tokens s) (Z.to_nat (tk_index s + 1)) = Some x).
    { rewrite Hts, Hidx. simpl chain_tokens.
      change (pre ++ (op :: x :: chain_tokens ps) ++ rest)
        with (pre ++ [op] ++ x :: chain_tokens ps ++ rest).
      rewrite app_assoc.
      replace (len pre + 1) with (len (pre ++ [op]))
        by (rewrite len_app; reflexivity).
      apply nth_error_at_len. }
    replace (List.length ((op, x) :: ps) + 2 + fuel)%nat
      with (S (S (S (List.length ps + fuel)))) by (simpl; lia).
    rewrite climb_S. unfold bind at 1.
    rewrite (nextPrecedence_spec _ _ op), Hop, Hq by assumption.
    unfold bind at 1. rewrite (advance_spec _ _ op) by assumption.
    set (s1 := mkParser (tk_index s + 1) _ _ (Some op)).
    unfold bind at 1. simpl local. unfold ret at 1.
    unfold bind at 1. unfold parseBinaryOperation.
    unfold bind at 1. unfold read_current_token at 1.
    unfold bind at 1. unfold get_self at 1. simpl getattr. unfold ret at 1.
    rewrite Hop.
    unfold bind at 1. simpl getitem. unfold ret at 1.
    unfold bind at 1. unfold read_current_token at 1.
    unfold bind at 1. unfold get_self at 1. simpl getattr. unfold ret at 1.
    unfold bind at 1.
    rewrite (advance_spec s1 _ x) by (simpl; (lia || assumption)).
    set (s2 := mkParser (tk_index s1 + 1) _ _ (Some x)).
    assert (Hts2 : tokens s2 = (pre ++ [op; x]) ++ chain_tokens ps ++ rest).
    { simpl. rewrite Hts. simpl chain_tokens. rewrite <- app_assoc.
      reflexivity. }
    assert (Hidx2 : tk_index s2 = len (pre ++ [op; x])).
    { simpl. rewrite len_app, Hidx. unfold len; simpl; lia. }
    unfold bind at 1.
    rewrite (parseExpression_operand _ s2 h x q);
      [ | rewrite Hidx2; apply len_nonneg | reflexivity | assumption
        | rewrite Hts2, Hidx2; apply (precedence_after_operand _ _ _ q p);
          assumption ].
    unfold ret at 1.
    replace (S (S (List.length ps + fuel)))
      with (List.length ps + 2 + fuel)%nat by lia.
    rewrite (IH fuel (pre ++ [op; x]) rest s2 h _ q p) by assumption.
    f_equal. unfold s2, s1.
    cbn [tk_index filename tokens current_token last_operand].
    f_equal. rewrite (len_cons (op, x) ps). lia.
Qed.

(** An expression that is an identifier followed by such a chain. *)
Lemma parseExpression_left_chain
  pairs fuel pre rest s h x0 q p :
  tokens s = pre ++ chain_tokens pairs ++ rest ->
  tk_index s = len pre ->
  current_token s = Some x0 ->
  tk_type x0 = TokenType.tk_identifier ->
  Forall (same_precedence q) pairs ->
  Precedence.gtb q p = true ->
  stops p rest ->
  parseExpression (List.length pairs + 3 + fuel) p s h
  = Ok (left_nested (Identifier (keyword x0)) pairs)
       (mkParser (tk_index s + 2 * len pairs) (filename s) (tokens s)
                 (last_operand (current_token s) pairs)) h.
Proof.
  intros Hts Hidx Hc Hx Hps Hq Hrest.
  replace (List.length pairs + 3 + fuel)%nat
    with (S (List.length pairs + 2 + fuel)) by lia.
  rewrite parseExpression_S. unfold bind at 1.
  rewrite (parsePrimary_identifier _ _ _ x0) by assumption.
  eapply climb_left_chain; eassumption.
Qed.

(** The chain [a - b + c - d], closed by a parenthesis. *)
Lemma parseExpression_left_chain_witness :
  tokens parser_chain = [chain_a] ++ chain_tokens chain_b_c_d ++ [chain_close] /\
  tk_index parser_chain = len [chain_a] /\
  current_token parser_chain = Some chain_a /\
  tk_type chain_a = TokenType.tk_identifier /\
  Forall (same_precedence Precedence.pr_sum) chain_b_c_d /\
  Precedence.gtb Precedence.pr_sum Precedence.pr_lowest = true /\
  stops Precedence.pr_lowest [chain_close] /\
  option_map Node_str
    (returned (parseExpression 6 Precedence.pr_lowest parser_chain
                 (fresh_heap [])))
  = Some (Some "(((a - b) + c) - d)"%string).
Proof.
  assert (Hf : Forall (same_precedence Precedence.pr_sum) chain_b_c_d)
    by (repeat constructor).
  assert (Hs : stops Precedence.pr_lowest [chain_close]) by reflexivity.
  repeat (split; [first [reflexivity | exact Hf | exact Hs] |]).
  exact (f_equal (fun r => option_map Node_str (returned r))
           (parseExpression_left_chain chain_b_c_d 0 [chain_a] [chain_close]
              parser_chain (fresh_heap []) chain_a
              Precedence.pr_sum Precedence.pr_lowest
              eq_refl eq_refl eq_refl eq_refl Hf eq_refl Hs)).
Defined.

(** ** A larger budget changes no outcome *)

Lemma refines_refl {A} (m : M A) : refines m m.
Proof. intros s h _. reflexivity. Qed.

Lemma refines_bind {A B} (m m' : M A) (k k' : A -> M B) :
  refines m m' -> (forall a, refines (k a) (k' a)) ->
  refines (bind m k) (bind m' k').
Proof.
  intros Hm Hk s h. unfold bind. intros Hne.
  assert (Hm0 : m s h <> OutOfFuel).
  { intros E. rewrite E in Hne. now apply Hne. }
  rewrite (Hm s h Hm0).
  destruct (m s h) as [a s1 h1 | e s1 h1 |]; auto.
  now apply Hk.
Qed.

Ltac refines_step :=
  match goal with
  | |- refines ?m ?m => apply refines_refl
  | |- refines (bind _ _) (bind _ _) => apply refines_bind; [| intros ]
  | |- refines (if ?b then _ else _) (if ?b then _ else _) => destruct b
  | |- refines (match ?o with Some _ => _ | None => _ end) _ => destruct o
  end.

Ltac refines_auto := repeat refines_step.

Lemma refines_parsePrimary rec rec' :
  (forall p, refines (rec p) (rec' p)) ->
  refines (parsePrimary rec) (parsePrimary rec').
Proof.
  intros Hrec.
  unfold parsePrimary, parseGroupedExpression, parsePrefixExpression.
  refines_auto; apply Hrec.
Qed.

Lemma refines_parseBinaryOperation rec rec' left :
  (forall p, refines (rec p) (rec' p)) ->
  refines (parseBinaryOperation rec left) (parseBinaryOperation rec' left).
Proof.
  intros Hrec. unfold parseBinaryOperation. refines_auto; apply Hrec.
Qed.

Lemma refines_parseExpression_climb n :
  forall m, (n <= m)%nat ->
    (forall p, refines (parseExpression n p) (parseExpression m p)) /\
    (forall p left, refines (climb n p left) (climb m p left)).
Proof.
  induction n as [| n IH]; intros m Hle.
  - split; intros; intros s h Hne; now destruct Hne.
  - destruct m as [| m]; [lia |].
    destruct (IH m ltac:(lia)) as [IHe IHc].
    split; intros.
    + rewrite !parseExpression_S.
      apply refines_bind; [apply refines_parsePrimary; assumption | auto].
    + rewrite !climb_S.
      pose proof (fun l => refines_parseBinaryOperation _ _ l IHe).
      refines_auto; auto.
Qed.

(** An outcome of [parseExpression] within a budget is its outcome within
    every larger budget. *)
Lemma parseExpression_budget n m p s h :
  (n <= m)%nat ->
  parseExpression n p s h <> OutOfFuel ->
  parseExpression m p s h = parseExpression n p s h.
Proof.
  intros Hle Hne. now apply (refines_parseExpression_climb n m Hle).
Qed.

Lemma refines_parseStatement n m :
  (n <= m)%nat -> refines (parseStatement n) (parseStatement m).
Proof.
  intros Hle.
  pose proof (fun p => proj1 (refines_parseExpression_climb n m Hle) p) as He.
  unfold parseStatement, parseVariableReassignment, parseVariableDeclaration.
  refines_auto; apply He.
Qed.

Lemma refines_parse_while k n m :
  (n <= m)%nat ->
  forall k', (k <= k')%nat -> refines (parse_while k n) (parse_while k' m).
Proof.
  intros Hle. induction k as [| k IH]; intros k' Hk.
  - intros s h Hne. now destruct Hne.
  - destruct k' as [| k']; [lia |]. simpl.
    pose proof (refines_parseStatement n m Hle).
    pose proof (IH k' ltac:(lia)).
    refines_auto; auto.
Qed.

(** The same for a whole run of [parse]. *)
Lemma parse_budget n m s h :
  (n <= m)%nat ->
  parse n s h <> OutOfFuel ->
  parse m s h = parse n s h.
Proof.
  intros Hle. revert s h. change (refines (parse n) (parse m)).
  unfold parse.
  pose proof (refines_parse_while n n m Hle m Hle).
  refines_auto; auto.
Qed.

(** * Further properties of the code *)

(** ** lexer/tokens.py: next *)

(** From the position before the first element to the last position, [next]
    returns the element after [index], and the empty string when there is
    none. *)
Theorem next_within (index : Z) (code : list string) :
  -1 <= index < len code ->
  next index code = Some (nth (Z.to_nat (index + 1)) code ""%string).
Proof.
  intros Hi. unfold next.
  destruct (len code =? index + 1) eqn:E.
  - apply Z.eqb_eq in E. rewrite nth_overflow; [reflexivity |].
    unfold len in E. lia.
  - apply Z.eqb_neq in E.
    rewrite list_getitem_nth_error by lia.
    apply nth_error_nth'. unfold len in *. lia.
Qed.

Lemma next_within_witness :
  -1 <= 1 < len ["a"; "b"; "c"]%string /\
  next 1 ["a"; "b"; "c"]%string = Some "c"%string /\
  next 2 ["a"; "b"; "c"]%string = Some ""%string.
Proof.
  assert (H1 : -1 <= 1 < len ["a"; "b"; "c"]%string)
    by (unfold len; simpl; lia).
  assert (H2 : -1 <= 2 < len ["a"; "b"; "c"]%string)
    by (unfold len; simpl; lia).
  exact (conj H1 (conj (next_within 1 _ H1) (next_within 2 _ H2))).
Defined.

(** At a position at or past the length, [next] raises [IndexError]. *)
Theorem next_past_end (index : Z) (code : list string) :
  len code <= index -> next index code = None.
Proof.
  intros Hi. unfold next.
  assert (Hl : 0 <= len code) by (unfold len; lia).
  destruct (len code =? index + 1) eqn:E; [apply Z.eqb_eq in E; lia |].
  rewrite list_getitem_nth_error by lia.
  apply nth_error_None. unfold len in *. lia.
Qed.

Lemma next_past_end_witness :
  len ["a"; "b"]%string <= 2 /\ next 2 ["a"; "b"]%string = None.
Proof.
  assert (H : len ["a"; "b"]%string <= 2) by (unfold len; simpl; lia).
  exact (conj H (next_past_end 2 _ H)).
Defined.

(** ** parser/ast.py: rendering *)

(** The rendering of a program is the concatenation of the renderings of
    its parts: what is appended to the list is appended to the text. *)
Theorem Program_str_app (a b : list (option Node)) :
  Program_str (a ++ b)
  = match Program_str a, Program_str b with
    | Some x, Some y => Some (x ++ y)%string
    | _, _ => None
    end.
Proof.
  induction a as [| n a IH]; simpl.
  - destruct (Program_str b); reflexivity.
  - rewrite IH.
    destruct (match n with Some x => Node_str x | None => Some "None"%string end)
      as [sn |];
      destruct (Program_str a) as [sa |]; destruct (Program_str b) as [sb |];
      try reflexivity.
    f_equal. clear. induction sn as [| c sn IHs]; simpl; [reflexivity |].
    now rewrite IHs.
Qed.

(** ** Parser.expect *)

(** [expect] does not depend on the tag it is given.  With a next token it
    moves onto it and returns, whatever its tag; with none it raises
    [AttributeError] and leaves the parser where it was.  The heap is
    untouched in both cases. *)
Theorem expect_behaviour (t : TokenType.t) (s : Parser) (h : Heap) :
  0 <= tk_index s ->
  expect t s h
  = match nth_error (tokens s) (Z.to_nat (tk_index s)) with
    | Some nx =>
        Ok tt (mkParser (tk_index s + 1) (filename s) (tokens s) (Some nx)) h
    | None => Raise AttributeError s h
    end.
Proof.
  intros Hi.
  destruct (nth_error (tokens s) (Z.to_nat (tk_index s))) as [nx |] eqn:E.
  - rewrite (expect_is_advance t s h nx) by assumption.
    now apply advance_spec.
  - unfold expect. unfold bind at 1.
    rewrite nextToken_spec, E by assumption. reflexivity.
Qed.

Lemma expect_behaviour_witness :
  0 <= tk_index parser_int_x_if /\
  expect TokenType.tk_r_paren parser_int_x_if (fresh_heap [])
  = Ok tt (mkParser 2 "main.pe" tokens_int_x_if
             (Some (tok "x" TokenType.tk_identifier)))
       (fresh_heap []) /\
  0 <= tk_index parser_int_x_if_done /\
  expect TokenType.tk_if parser_int_x_if_done (fresh_heap [])
  = Raise AttributeError parser_int_x_if_done (fresh_heap []).
Proof.
  assert (H1 : 0 <= tk_index parser_int_x_if) by (simpl; lia).
  assert (H2 : 0 <= tk_index parser_int_x_if_done) by (simpl; lia).
  exact (conj H1
           (conj (expect_behaviour TokenType.tk_r_paren parser_int_x_if
                    (fresh_heap []) H1)
              (conj H2
                 (expect_behaviour TokenType.tk_if parser_int_x_if_done
                    (fresh_heap []) H2)))).
Defined.

(** ** Parser.error *)

Lemma find_line_nth (ls : list string) :
  forall i n, i <= n ->
    find_line i n ls = nth (Z.to_nat (n - i)) ls ""%string.
Proof.
  induction ls as [| l ls IH]; intros i n Hle; simpl.
  - now destruct (Z.to_nat (n - i)).
  - destruct (i =? n) eqn:E.
    + apply Z.eqb_eq in E. subst. now rewrite Z.sub_diag.
    + apply Z.eqb_neq in E. rewrite IH by lia.
      replace (Z.to_nat (n - i)) with (S (Z.to_nat (n - (i + 1)))) by lia.
      reflexivity.
Qed.

(** When the file of the parser can be opened and the parser stands on a
    token, [error] returns, changes nothing in the parser, and appends one
    diagnostic to the list of the class: at the line and position of the
    current token, with the fixed title and hint, the given message and code,
    and as source text the line whose number counted from zero is the line
    of the token (the empty string when the file has no such line). *)
Theorem error_records
  (message errorCode : string) (s : Parser) (h : Heap)
  (t : Token) (ls : list string) :
  open_file (files h) (filename s) = Some ls ->
  current_token s = Some t ->
  0 <= line t ->
  error message errorCode s h
  = Ok tt s
      (with_error h
         (mkPEError
            (mkLocation (line t) (index t) (filename s)
                        (nth (Z.to_nat (line t)) ls ""%string))
            "error code str" message "error code hint" errorCode)).
Proof.
  intros Hf Hc Hl. unfold error.
  unfold bind at 1. unfold get_self at 1.
  unfold bind at 1. unfold get_heap at 1.
  rewrite Hf.
  unfold bind at 1. unfold read_current_token, bind at 1, get_self.
  rewrite Hc. simpl getattr. unfold ret at 1.
  rewrite find_line_nth by assumption. rewrite Z.sub_0_r.
  reflexivity.
Qed.

Lemma error_records_witness :
  open_file (files (fresh_heap files_of_first_run))
            (filename parser_int_a_int_b)
  = Some ["int a"; "int b"]%string /\
  current_token parser_int_a_int_b = Some (tok "int" TokenType.tk_int) /\
  0 <= line (tok "int" TokenType.tk_int) /\
  error "unexpected token" "E1" parser_int_a_int_b
    (fresh_heap files_of_first_run)
  = Ok tt parser_int_a_int_b heap_after_error.
Proof.
  assert (H3 : 0 <= line (tok "int" TokenType.tk_int)) by (simpl; lia).
  exact (conj eq_refl
           (conj eq_refl
              (conj H3
                 (error_records "unexpected token" "E1" parser_int_a_int_b
                    (fresh_heap files_of_first_run)
                    (tok "int" TokenType.tk_int) ["int a"; "int b"]%string
                    eq_refl eq_refl H3)))).
Defined.

(** ** Parser.parse: when a run exits *)

Lemma never_exits_ret {A} (a : A) : never_exits (ret a).
Proof. intros s h e s' h' H; discriminate H. Qed.

Lemma never_exits_out_of_fuel {A} : never_exits (@out_of_fuel A).
Proof. intros s h e s' h' H; discriminate H. Qed.

Lemma never_exits_raise {A} e :
  (forall st, e <> SystemExit st) -> never_exits (@raise A e).
Proof. intros He s h e' s' h' H. inversion H; subst. exact He. Qed.

Lemma never_exits_bind {A B} (m : M A) (k : A -> M B) :
  never_exits m -> (forall a, never_exits (k a)) -> never_exits (bind m k).
Proof.
  intros Hm Hk s h e s' h'. unfold bind.
  destruct (m s h) as [a s1 h1 | e1 s1 h1 |] eqn:E; intros H.
  - eapply Hk; eassumption.
  - inversion H; subst. eapply Hm; eassumption.
  - discriminate H.
Qed.

Lemma never_exits_getattr_None {A B} (k : A -> M B) :
  never_exits (bind (getattr None) k).
Proof. intros s h e s' h' H. inversion H; subst. discriminate. Qed.

Lemma never_exits_getattr {A} (o : option A) : never_exits (getattr o).
Proof.
  destruct o; [apply never_exits_ret | apply never_exits_raise; discriminate].
Qed.

Lemma never_exits_local {A} (o : option A) : never_exits (local o).
Proof.
  destruct o; [apply never_exits_ret | apply never_exits_raise; discriminate].
Qed.

Lemma never_exits_getitem {A} (o : option A) : never_exits (getitem o).
Proof.
  destruct o; [apply never_exits_ret | apply never_exits_raise; discriminate].
Qed.

Lemma never_exits_get_self : never_exits get_self.
Proof. intros s h e s' h' H; discriminate H. Qed.

Lemma never_exits_set_self x : never_exits (set_self x).
Proof. intros s h e s' h' H; discriminate H. Qed.

Lemma never_exits_print o : never_exits (print o).
Proof. intros s h e s' h' H; discriminate H. Qed.

Lemma never_exits_append n : never_exits (Program_nodes_append n).
Proof. intros s h e s' h' H; discriminate H. Qed.

Create HintDb exits discriminated.
#[local] Hint Resolve never_exits_ret never_exits_out_of_fuel
  never_exits_getattr never_exits_local never_exits_getitem
  never_exits_get_self never_exits_set_self never_exits_print
  never_exits_append : exits.

Ltac exits_step :=
  match goal with
  | |- never_exits (bind (getattr None) _) => apply never_exits_getattr_None
  | |- never_exits (bind _ _) => apply never_exits_bind; [| intros ]
  | |- never_exits (raise IndexError) =>
      apply never_exits_raise; discriminate
  | |- never_exits (if ?b then _ else _) => destruct b
  | |- never_exits (match ?o with Some _ => _ | None => _ end) => destruct o
  | |- never_exits _ => solve [ auto with exits ]
  end.

Ltac exits_auto := repeat exits_step.

Lemma never_exits_advance : never_exits advance.
Proof. unfold advance. exits_auto. Qed.

Lemma never_exits_nextToken : never_exits nextToken.
Proof. unfold nextToken. exits_auto. Qed.

#[local] Hint Resolve never_exits_advance never_exits_nextToken : exits.

Lemma never_exits_expect t : never_exits (expect t).
Proof. unfold expect. exits_auto. Qed.

Lemma never_exits_nextPrecedence : never_exits nextPrecedence.
Proof. unfold nextPrecedence. exits_auto. Qed.

#[local] Hint Resolve never_exits_expect never_exits_nextPrecedence : exits.

Lemma never_exits_parsePrimary rec :
  (forall p, never_exits (rec p)) -> never_exits (parsePrimary rec).
Proof.
  intros Hrec.
  unfold parsePrimary, parseInteger, parseString, parseBool, parseIdentifier,
    parseGroupedExpression, parsePrefixExpression, read_current_token.
  exits_auto.
Qed.

Lemma never_exits_parseBinaryOperation rec left :
  (forall p, never_exits (rec p)) ->
  never_exits (parseBinaryOperation rec left).
Proof.
  intros Hrec. unfold parseBinaryOperation, read_current_token. exits_auto.
Qed.

Lemma never_exits_parseExpression_climb fuel :
  (forall p, never_exits (parseExpression fuel p)) /\
  (forall p left, never_exits (climb fuel p left)).
Proof.
  induction fuel as [| fuel [IHe IHc]]; split; intros;
    try apply never_exits_out_of_fuel.
  - rewrite parseExpression_S.
    apply never_exits_bind; [now apply never_exits_parsePrimary | auto].
  - rewrite climb_S.
    pose proof (fun l => never_exits_parseBinaryOperation _ l IHe).
    exits_auto.
Qed.

Lemma never_exits_parseStatement fuel : never_exits (parseStatement fuel).
Proof.
  pose proof (proj1 (never_exits_parseExpression_climb fuel)) as He.
  unfold parseStatement, parseVariableReassignment, parseVariableDeclaration,
    parseIf, parseWhile, parseFor, parseMatch, parseFunctionDeclaration,
    read_current_token, TokenType.tk_ccode, Precedence.pr_lowestr.
  exits_auto.
Qed.

Lemma never_exits_parse_while n fuel : never_exits (parse_while n fuel).
Proof.
  induction n as [| n IH]; simpl; [apply never_exits_out_of_fuel |].
  pose proof (never_exits_parseStatement fuel).
  exits_auto.
Qed.

(** [parse] ends in [SystemExit] only with status 1 and only when the list
    of diagnostics was not empty before the call: nothing that [parse] calls
    records a diagnostic or exits. *)
Theorem parse_exit_needs_prior_diagnostic
  (fuel : nat) (s : Parser) (h : Heap) (st : Z) :
  raised (parse fuel s h) = Some (SystemExit st) ->
  st = 1 /\ Parser_errors h <> [].
Proof.
  unfold parse. unfold bind at 1.
  pose proof (never_exits_parse_while fuel fuel s h) as Hex.
  pose proof (parse_while_loop_frame fuel fuel s h) as Hfr.
  destruct (parse_while fuel fuel s h) as [[] s1 h1 | e s1 h1 |].
  - unfold bind at 1. unfold get_heap.
    destruct Hfr as (_ & He & _).
    destruct (negb (len (Parser_errors h1) =? 0)) eqn:En.
    + unfold bind. rewrite display_all_spec. simpl. intros H.
      inversion H. split; [reflexivity |].
      rewrite <- He. intros E. rewrite E in En. discriminate En.
    + discriminate.
  - simpl. intros H. inversion H; subst. exfalso. eapply Hex; reflexivity.
  - discriminate.
Qed.

Lemma parse_exit_needs_prior_diagnostic_witness :
  raised (parse 3 parser_if_while_for (mkHeap [some_diagnostic] [] [] []))
  = Some (SystemExit 1) /\
  1 = 1 /\ Parser_errors (mkHeap [some_diagnostic] [] [] []) <> [].
Proof.
  exact (conj eq_refl
           (parse_exit_needs_prior_diagnostic 3 parser_if_while_for
              (mkHeap [some_diagnostic] [] [] []) 1 eq_refl)).
Defined.

(** ** Parser.parse: how far the loop goes *)

Lemma advance_progress s h s' h' :
  in_bounds s ->
  advance s h = Ok tt s' h' ->
  tokens s' = tokens s /\ h' = h /\
  tk_index s' = Z.min (tk_index s + 1) (len (tokens s)).
Proof.
  intros [Hlo Hhi] H.
  destruct (Z.eq_dec (tk_index s) (len (tokens s))) as [E | E].
  - rewrite advance_at_end in H by lia. inversion H; subst. repeat split. lia.
  - destruct (nth_error (tokens s) (Z.to_nat (tk_index s))) as [t |] eqn:N.
    + rewrite (advance_spec s h t) in H by assumption.
      inversion H; subst; simpl. repeat split. lia.
    + apply nth_error_None in N. unfold len in *. lia.
Qed.

(** A loop of [parse] that returns has exhausted the cursor, and has appended
    at most one statement for each token that was still ahead when it
    started (the token the parser stands on at the start is not among
    them). *)
Theorem parse_while_exhausts (n fuel : nat) :
  forall (s : Parser) (h : Heap) (s' : Parser) (h' : Heap),
    in_bounds s ->
    parse_while n fuel s h = Ok tt s' h' ->
    tokens s' = tokens s /\
    tk_index s' = len (tokens s) /\
    exists stmts,
      Program_nodes h' = Program_nodes h ++ stmts /\
      len stmts <= len (tokens s) - tk_index s.
Proof.
  induction n as [| n IH]; intros s h s' h' Hb H; simpl in H;
    [discriminate |].
  unfold bind at 1 in H. unfold get_self in H.
  destruct (tk_index s <? len (tokens s)) eqn:E.
  - apply Z.ltb_lt in E. unfold bind at 1 in H.
    pose proof (framed_parseStatement fuel s h) as Hs.
    destruct (parseStatement fuel s h) as [node s1 h1 | |]; try discriminate.
    simpl in Hs. destruct Hs as (Hc & _ & Hn1 & _).
    destruct (cursor_ok_keeps s s1 Hb Hc) as (Ht1 & Hi1 & Hb1).
    unfold bind at 1 in H. unfold Program_nodes_append in H.
    fold (append_node h1 node) in H.
    unfold bind at 1 in H.
    destruct (advance s1 (append_node h1 node)) as [[] s2 h2 | |] eqn:Ea;
      try discriminate.
    destruct (advance_progress _ _ _ _ Hb1 Ea) as (Ht2 & Hh2 & Hi2).
    assert (Hb2 : in_bounds s2).
    { unfold in_bounds in *. rewrite Ht2. lia. }
    destruct (IH _ _ _ _ Hb2 H) as (Ht' & Hi' & stmts & Hn & Hlen).
    split; [congruence |]. split; [congruence |].
    exists (node :: stmts). split.
    + rewrite Hn, Hh2. simpl. rewrite Hn1, <- app_assoc. reflexivity.
    + rewrite len_cons. rewrite Ht2, Ht1 in Hlen. rewrite Ht1 in Hi2. lia.
  - apply Z.ltb_ge in E. inversion H; subst.
    split; [reflexivity |]. split; [unfold in_bounds in Hb; lia |].
    exists []. rewrite app_nil_r. split; [reflexivity |].
    unfold in_bounds in Hb. unfold len at 1. simpl. lia.
Qed.

Lemma parse_while_exhausts_witness :
  in_bounds parser_if_while_for /\
  parse_while 3 3 parser_if_while_for (fresh_heap [])
  = Ok tt parser_if_while_for_done (mkHeap [] [None; None] [] []) /\
  tokens parser_if_while_for_done = tokens parser_if_while_for /\
  tk_index parser_if_while_for_done = len (tokens parser_if_while_for) /\
  exists stmts,
    Program_nodes (mkHeap [] [None; None] [] [])
    = Program_nodes (fresh_heap []) ++ stmts /\
    len stmts
    <= len (tokens parser_if_while_for) - tk_index parser_if_while_for.
Proof.
  assert (Hb : in_bounds parser_if_while_for)
    by (unfold in_bounds, len; simpl; lia).
  exact (conj Hb
           (conj eq_refl
              (parse_while_exhausts 3 3 parser_if_while_for (fresh_heap [])
                 parser_if_while_for_done (mkHeap [] [None; None] [] [])
                 Hb eq_refl))).
Defined.

(** A token list of at most one token gives a program to which nothing is
    added: the constructor moves onto the only token, which exhausts the
    cursor, and the loop of [parse] does not run; the token is never
    dispatched. *)
Theorem short_program_has_no_statement
  (fuel : nat) (f : string) (ts : list Token) (h : Heap) :
  (List.length ts <= 1)%nat ->
  Parser_errors h = [] ->
  returned (run (S fuel) f ts h) = Some Program /\
  heap_after (run (S fuel) f ts h) = Some h.
Proof.
  intros Hlen He.
  destruct ts as [| t [| t' ts]]; simpl in Hlen; try lia;
    unfold run, Parser_new, parse; simpl;
    unfold bind, get_self, get_heap, ret; simpl;
    rewrite He; split; reflexivity.
Qed.

Lemma short_program_has_no_statement_witness :
  (List.length [tok "x" TokenType.tk_identifier] <= 1)%nat /\
  Parser_errors (fresh_heap []) = [] /\
  returned (run 1 "main.pe" [tok "x" TokenType.tk_identifier] (fresh_heap []))
  = Some Program /\
  heap_after (run 1 "main.pe" [tok "x" TokenType.tk_identifier]
                (fresh_heap []))
  = Some (fresh_heap []).
Proof.
  assert (H1 : (List.length [tok "x" TokenType.tk_identifier] <= 1)%nat)
    by (simpl; lia).
  exact (conj H1
           (conj eq_refl
              (short_program_has_no_statement 0 "main.pe"
                 [tok "x" TokenType.tk_identifier] (fresh_heap [])
                 H1 eq_refl))).
Defined.

(** ** Parser.parseStatement: the branches that parse nothing *)

(** On [if], [while], [for], [match] and [def] the statement parser returns
    Python's [None] and leaves the parser and the heap as they were: no token
    is consumed and nothing is reported. *)
Theorem parseStatement_reserved
  (fuel : nat) (s : Parser) (h : Heap) (t : Token) :
  current_token s = Some t ->
  reserved_statement (tk_type t) = true ->
  parseStatement fuel s h = Ok None s h.
Proof.
  intros Hc Hr. unfold parseStatement.
  unfold bind at 1. unfold read_current_token at 1.
  unfold bind at 1. unfold get_self at 1. rewrite Hc. simpl getattr.
  unfold ret at 1. revert Hr.
  destruct (tk_type t); intros Hr; try discriminate Hr; reflexivity.
Qed.

Lemma parseStatement_reserved_witness :
  current_token parser_int_x_if_done = Some (tok "if" TokenType.tk_if) /\
  reserved_statement (tk_type (tok "if" TokenType.tk_if)) = true /\
  parseStatement 0 parser_int_x_if_done (fresh_heap [])
  = Ok None parser_int_x_if_done (fresh_heap []).
Proof.
  exact (conj eq_refl
           (conj eq_refl
              (parseStatement_reserved 0 parser_int_x_if_done (fresh_heap [])
                 (tok "if" TokenType.tk_if) eq_refl eq_refl))).
Defined.

(** On every tag that is neither the identifier, nor a type keyword of
    [LangTypes], nor one of the five reserved keywords, the statement parser
    raises [AttributeError] when it evaluates [TokenType.tk_ccode], with
    parser and heap unchanged: the final branch, which would parse an
    expression statement, is never reached. *)
Theorem parseStatement_other_tag
  (fuel : nat) (s : Parser) (h : Heap) (t : Token) :
  current_token s = Some t ->
  starts_statement (tk_type t) = false ->
  parseStatement fuel s h = Raise AttributeError s h.
Proof.
  intros Hc Hr. unfold parseStatement.
  unfold bind at 1. unfold read_current_token at 1.
  unfold bind at 1. unfold get_self at 1. rewrite Hc. simpl getattr.
  unfold ret at 1. revert Hr.
  destruct (tk_type t); intros Hr; try discriminate Hr; reflexivity.
Qed.

Lemma parseStatement_other_tag_witness :
  current_token
    (mkParser 1 "main.pe" (tokens_1_plus_2_times_3 TokenType.integer)
              (Some (tok "1" TokenType.integer)))
  = Some (tok "1" TokenType.integer) /\
  starts_statement (tk_type (tok "1" TokenType.integer)) = false /\
  parseStatement 5
    (mkParser 1 "main.pe" (tokens_1_plus_2_times_3 TokenType.integer)
              (Some (tok "1" TokenType.integer)))
    (fresh_heap [])
  = Raise AttributeError
      (mkParser 1 "main.pe" (tokens_1_plus_2_times_3 TokenType.integer)
                (Some (tok "1" TokenType.integer)))
      (fresh_heap []).
Proof.
  exact (conj eq_refl
           (conj eq_refl
              (parseStatement_other_tag 5
                 (mkParser 1 "main.pe"
                    (tokens_1_plus_2_times_3 TokenType.integer)
                    (Some (tok "1" TokenType.integer)))
                 (fresh_heap []) (tok "1" TokenType.integer)
                 eq_refl eq_refl))).
Defined.

(** ** Parser.parseVariableDeclaration *)

(** A type keyword with no token after it: [expect] finds no next token and
    the declaration raises [AttributeError], parser and heap unchanged. *)
Theorem parseVariableDeclaration_no_name
  (fuel : nat) (s : Parser) (h : Heap) (ty : Token) :
  current_token s = Some ty ->
  len (tokens s) <= tk_index s ->
  parseVariableDeclaration fuel s h = Raise AttributeError s h.
Proof.
  intros Hc Hend. unfold parseVariableDeclaration.
  unfold bind at 1. unfold read_current_token at 1.
  unfold bind at 1. unfold get_self at 1. rewrite Hc. simpl getattr.
  unfold ret at 1.
  unfold bind at 1. unfold expect. unfold bind at 1.
  rewrite nextToken_at_end by assumption. reflexivity.
Qed.

Lemma parseVariableDeclaration_no_name_witness :
  current_token (mkParser 1 "main.pe" [tok "int" TokenType.tk_int]
                          (Some (tok "int" TokenType.tk_int)))
  = Some (tok "int" TokenType.tk_int) /\
  len [tok "int" TokenType.tk_int] <= 1 /\
  parseVariableDeclaration 2
    (mkParser 1 "main.pe" [tok "int" TokenType.tk_int]
              (Some (tok "int" TokenType.tk_int)))
    (fresh_heap [])
  = Raise AttributeError
      (mkParser 1 "main.pe" [tok "int" TokenType.tk_int]
                (Some (tok "int" TokenType.tk_int)))
      (fresh_heap []).
Proof.
  assert (H2 : len [tok "int" TokenType.tk_int] <= 1)
    by (unfold len; simpl; lia).
  exact (conj eq_refl
           (conj H2
              (parseVariableDeclaration_no_name 2
                 (mkParser 1 "main.pe" [tok "int" TokenType.tk_int]
                    (Some (tok "int" TokenType.tk_int)))
                 (fresh_heap []) (tok "int" TokenType.tk_int) eq_refl H2))).
Defined.

Lemma parseVariableDeclaration_next_not_assign_witness :
  0 <= tk_index parser_int_x_if /\
  current_token parser_int_x_if = Some (tok "int" TokenType.tk_int) /\
  nth_error (tokens parser_int_x_if) (Z.to_nat (tk_index parser_int_x_if))
  = Some (tok "x" TokenType.tk_identifier) /\
  nth_error (tokens parser_int_x_if)
            (Z.to_nat (tk_index parser_int_x_if + 1))
  = Some (tok "if" TokenType.tk_if) /\
  tk_type (tok "if" TokenType.tk_if) <> TokenType.tk_assign /\
  parseVariableDeclaration 0 parser_int_x_if (fresh_heap [])
  = Raise AttributeError
      (mkParser 2 "main.pe" tokens_int_x_if
                (Some (tok "x" TokenType.tk_identifier)))
      (fresh_heap []).
Proof.
  assert (H1 : 0 <= tk_index parser_int_x_if) by (simpl; lia).
  assert (H5 : tk_type (tok "if" TokenType.tk_if) <> TokenType.tk_assign)
    by discriminate.
  exact (conj H1
           (conj eq_refl
              (conj eq_refl
                 (conj eq_refl
                    (conj H5
                       (parseVariableDeclaration_next_not_assign 0
                          parser_int_x_if (fresh_heap [])
                          (tok "int" TokenType.tk_int)
                          (tok "x" TokenType.tk_identifier)
                          (tok "if" TokenType.tk_if)
                          H1 eq_refl eq_refl eq_refl H5)))))).
Defined.


(** ** Parser.parseExpression: operators, prefix and grouping *)

Lemma climbing_on_identifiers_witness :
  In TokenType.tk_plus (map fst precedenceMap) /\
  In TokenType.tk_asterisk (map fst precedenceMap) /\
  returned
    (run_expression 6 "main.pe"
       [ tok "a" TokenType.tk_identifier; tok "+" TokenType.tk_plus;
         tok "b" TokenType.tk_identifier; tok "*" TokenType.tk_asterisk;
         tok "c" TokenType.tk_identifier ] (fresh_heap []))
  = Some (BinaryOperation (Identifier "a") "+"
            (BinaryOperation (Identifier "b") "*" (Identifier "c"))).
Proof.
  assert (H1 : In TokenType.tk_plus (map fst precedenceMap))
    by (simpl; tauto).
  assert (H2 : In TokenType.tk_asterisk (map fst precedenceMap))
    by (simpl; tauto).
  exact (conj H1
           (conj H2
              (climbing_on_identifiers 0 "a" "b" "c" "+" "*"
                 TokenType.tk_plus TokenType.tk_asterisk (fresh_heap [])
                 H1 H2))).
Defined.

(** A prefix minus takes the operand that follows it and nothing more: for
    every operator [o] of the table, [- x o y] is the operation [o] on the
    negation of [x] and on [y]. *)
Theorem prefix_binds_tightest
  (fuel : nat) (km kx ko ky : string) (o : TokenType.t) (h : Heap) :
  In o (map fst precedenceMap) ->
  returned
    (run_expression (5 + fuel) "main.pe"
       [ tok km TokenType.tk_minus; tok kx TokenType.tk_identifier;
         tok ko o; tok ky TokenType.tk_identifier ] h)
  = Some (BinaryOperation (PrefixExpression km (Identifier kx)) ko
            (Identifier ky)).
Proof.
  intros H. simpl in H.
  repeat match goal with H : _ \/ _ |- _ => destruct H as [H | H] end;
    try contradiction; subst; reflexivity.
Qed.

Lemma prefix_binds_tightest_witness :
  In TokenType.tk_asterisk (map fst precedenceMap) /\
  returned
    (run_expression 5 "main.pe"
       [ tok "-" TokenType.tk_minus; tok "a" TokenType.tk_identifier;
         tok "*" TokenType.tk_asterisk; tok "b" TokenType.tk_identifier ]
       (fresh_heap []))
  = Some (BinaryOperation (PrefixExpression "-" (Identifier "a")) "*"
            (Identifier "b")).
Proof.
  assert (H : In TokenType.tk_asterisk (map fst precedenceMap))
    by (simpl; tauto).
  exact (conj H
           (prefix_binds_tightest 0 "-" "a" "*" "b" TokenType.tk_asterisk
              (fresh_heap []) H)).
Defined.

(** Parentheses override the table: for every two operators, in
    [( x o1 y ) o2 z] the operation in the parentheses is the left operand
    of [o2], whatever the two precedences; the parentheses leave no node of
    their own. *)
Theorem grouping_overrides_precedence
  (fuel : nat) (kx ky kz k1 k2 : string) (o1 o2 : TokenType.t) (h : Heap) :
  In o1 (map fst precedenceMap) ->
  In o2 (map fst precedenceMap) ->
  returned
    (run_expression (6 + fuel) "main.pe"
       [ tok "(" TokenType.tk_l_paren; tok kx TokenType.tk_identifier;
         tok k1 o1; tok ky TokenType.tk_identifier;
         tok ")" TokenType.tk_r_paren; tok k2 o2;
         tok kz TokenType.tk_identifier ] h)
  = Some (BinaryOperation
            (BinaryOperation (Identifier kx) k1 (Identifier ky))
            k2 (Identifier kz)).
Proof.
  intros H1 H2. simpl in H1, H2.
  repeat match goal with H : _ \/ _ |- _ => destruct H as [H | H] end;
    try contradiction; subst; reflexivity.
Qed.

Lemma grouping_overrides_precedence_witness :
  In TokenType.tk_plus (map fst precedenceMap) /\
  In TokenType.tk_asterisk (map fst precedenceMap) /\
  returned
    (run_expression 6 "main.pe"
       [ tok "(" TokenType.tk_l_paren; tok "a" TokenType.tk_identifier;
         tok "+" TokenType.tk_plus; tok "b" TokenType.tk_identifier;
         tok ")" TokenType.tk_r_paren; tok "*" TokenType.tk_asterisk;
         tok "c" TokenType.tk_identifier ] (fresh_heap []))
  = Some (BinaryOperation
            (BinaryOperation (Identifier "a") "+" (Identifier "b"))
            "*" (Identifier "c")).
Proof.
  assert (H1 : In TokenType.tk_plus (map fst precedenceMap))
    by (simpl; tauto).
  assert (H2 : In TokenType.tk_asterisk (map fst precedenceMap))
    by (simpl; tauto).
  exact (conj H1
           (conj H2
              (grouping_overrides_precedence 0 "a" "b" "c" "+" "*"
                 TokenType.tk_plus TokenType.tk_asterisk (fresh_heap [])
                 H1 H2))).
Defined.

(** Where the closing parenthesis of a group is due, any token that is not
    an operator of the table is consumed in its place: [( x t] returns the
    identifier, with the parser moved onto [t] and nothing reported. *)
Theorem group_accepts_any_closing_token
  (fuel : nat) (kx : string) (t : Token) (h : Heap) :
  dict_get precedenceMap (tk_type t) = None ->
  run_expression (4 + fuel) "main.pe"
    [ tok "(" TokenType.tk_l_paren; tok kx TokenType.tk_identifier; t ] h
  = Ok (Identifier kx)
       (mkParser 3 "main.pe"
          [ tok "(" TokenType.tk_l_paren; tok kx TokenType.tk_identifier; t ]
          (Some t))
       h.
Proof.
  destruct t as [k i l ty]. simpl tk_type.
  destruct ty; intros H; try discriminate H; reflexivity.
Qed.

Lemma group_accepts_any_closing_token_witness :
  dict_get precedenceMap (tk_type (tok "]" TokenType.tk_comma)) = None /\
  run_expression 4 "main.pe"
    [ tok "(" TokenType.tk_l_paren; tok "a" TokenType.tk_identifier;
      tok "]" TokenType.tk_comma ] (fresh_heap [])
  = Ok (Identifier "a")
       (mkParser 3 "main.pe"
          [ tok "(" TokenType.tk_l_paren; tok "a" TokenType.tk_identifier;
            tok "]" TokenType.tk_comma ]
          (Some (tok "]" TokenType.tk_comma)))
       (fresh_heap []).
Proof.
  exact (conj eq_refl
           (group_accepts_any_closing_token 0 "a" (tok "]" TokenType.tk_comma)
              (fresh_heap []) eq_refl)).
Defined.

(** ** Parser.parseExpression: tokens that start no expression *)

Lemma parsePrimary_no_primary rec s h t :
  current_token s = Some t ->
  starts_primary (tk_type t) = false ->
  parsePrimary rec s h
  = Ok None s
       (with_stdout h
          (stdout h ++ [Printed "Error: "; PrintedType (tk_type t)])).
Proof.
  intros Hc Hp. unfold parsePrimary.
  unfold bind at 1. unfold read_current_token at 1.
  unfold bind at 1. unfold get_self at 1. rewrite Hc. simpl getattr.
  unfold ret at 1. unfold starts_primary in Hp.
  repeat (apply orb_false_elim in Hp; destruct Hp as [Hp ?]).
  repeat match goal with H : TokenType.eqb _ _ = false |- _ =>
           rewrite H; clear H end.
  unfold bind, print, ret, with_stdout. simpl. now rewrite <- app_assoc.
Qed.

(** On a token whose tag starts no primary (a literal tagged [integer],
    [decimal] or [string], [true], [false], [not], a closing parenthesis, any
    keyword), [parseExpression] prints the two lines of its last branch and
    raises [UnboundLocalError], at once or after it has advanced onto a
    following operator: it returns no node and records no diagnostic. *)
Theorem parseExpression_no_primary
  (fuel : nat) (p : Precedence.t) (s : Parser) (h : Heap) (t : Token) :
  current_token s = Some t ->
  starts_primary (tk_type t) = false ->
  0 <= tk_index s ->
  raised (parseExpression (S (S fuel)) p s h) = Some UnboundLocalError /\
  heap_after (parseExpression (S (S fuel)) p s h)
  = Some (with_stdout h
            (stdout h ++ [Printed "Error: "; PrintedType (tk_type t)])).
Proof.
  intros Hc Hp Hi.
  assert (E : exists s1,
             parseExpression (S (S fuel)) p s h
             = Raise UnboundLocalError s1
                 (with_stdout h
                    (stdout h
                     ++ [Printed "Error: "; PrintedType (tk_type t)]))).
  { rewrite parseExpression_S. unfold bind at 1.
    rewrite (parsePrimary_no_primary _ s h t) by assumption.
    rewrite climb_S. unfold bind at 1.
    rewrite nextPrecedence_at by assumption.
    destruct (Precedence.gtb (precedence_at (tokens s) (tk_index s)) p)
      eqn:G.
    - unfold precedence_at in G.
      destruct (nth_error (tokens s) (Z.to_nat (tk_index s))) as [t' |]
        eqn:N; [| destruct p; discriminate G].
      unfold bind at 1. rewrite (advance_spec _ _ t') by assumption.
      eexists. reflexivity.
    - eexists. reflexivity. }
  destruct E as (s1 & E). rewrite E. split; reflexivity.
Qed.

Lemma parseExpression_no_primary_witness :
  current_token
    (mkParser 1 "main.pe" [tok "true" TokenType.tk_true]
              (Some (tok "true" TokenType.tk_true)))
  = Some (tok "true" TokenType.tk_true) /\
  starts_primary (tk_type (tok "true" TokenType.tk_true)) = false /\
  0 <= 1 /\
  raised (parseExpression 2 Precedence.pr_lowest
            (mkParser 1 "main.pe" [tok "true" TokenType.tk_true]
                      (Some (tok "true" TokenType.tk_true)))
            (fresh_heap []))
  = Some UnboundLocalError.
Proof.
  assert (H3 : 0 <= 1) by lia.
  exact (conj eq_refl
           (conj eq_refl
              (conj H3
                 (proj1
                    (parseExpression_no_primary 0 Precedence.pr_lowest
                       (mkParser 1 "main.pe" [tok "true" TokenType.tk_true]
                          (Some (tok "true" TokenType.tk_true)))
                       (fresh_heap []) (tok "true" TokenType.tk_true)
                       eq_refl eq_refl H3))))).
Defined.

(** An identifier followed by nothing, or by a token that is not in the
    table of precedences (the exponent, the modulo, the floor division, a
    bitwise operator, a shift, ...), is a whole expression at every
    threshold: it is returned and the following token is left where it
    is. *)
Theorem expression_ends_at_unknown_operator
  (fuel : nat) (p : Precedence.t) (s : Parser) (h : Heap) (x : Token) :
  0 <= tk_index s ->
  current_token s = Some x ->
  tk_type x = TokenType.tk_identifier ->
  (forall t, nth_error (tokens s) (Z.to_nat (tk_index s)) = Some t ->
             dict_get precedenceMap (tk_type t) = None) ->
  parseExpression (S (S fuel)) p s h = Ok (Identifier (keyword x)) s h.
Proof.
  intros Hi Hc Hx Hnext.
  apply parseExpression_operand; try assumption.
  unfold precedence_at, operator_precedence.
  destruct (nth_error (tokens s) (Z.to_nat (tk_index s))) as [t |];
    [rewrite (Hnext t eq_refl) |]; destruct p; reflexivity.
Qed.

Lemma expression_ends_at_unknown_operator_witness :
  0 <= 1 /\
  (forall t,
     nth_error [ tok "a" TokenType.tk_identifier;
                 tok "**" TokenType.tk_exponent;
                 tok "b" TokenType.tk_identifier ] (Z.to_nat 1) = Some t ->
     dict_get precedenceMap (tk_type t) = None) /\
  parseExpression 2 Precedence.pr_lowest
    (mkParser 1 "main.pe"
       [ tok "a" TokenType.tk_identifier; tok "**" TokenType.tk_exponent;
         tok "b" TokenType.tk_identifier ]
       (Some (tok "a" TokenType.tk_identifier)))
    (fresh_heap [])
  = Ok (Identifier "a")
       (mkParser 1 "main.pe"
          [ tok "a" TokenType.tk_identifier; tok "**" TokenType.tk_exponent;
            tok "b" TokenType.tk_identifier ]
          (Some (tok "a" TokenType.tk_identifier)))
       (fresh_heap []).
Proof.
  assert (H1 : 0 <= 1) by lia.
  assert (H4 : forall t,
             nth_error [ tok "a" TokenType.tk_identifier;
                         tok "**" TokenType.tk_exponent;
                         tok "b" TokenType.tk_identifier ] (Z.to_nat 1)
             = Some t ->
             dict_get precedenceMap (tk_type t) = None).
  { intros t Ht. inversion Ht; subst. reflexivity. }
  exact (conj H1
           (conj H4
              (expression_ends_at_unknown_operator 0 Precedence.pr_lowest
                 (mkParser 1 "main.pe"
                    [ tok "a" TokenType.tk_identifier;
                      tok "**" TokenType.tk_exponent;
                      tok "b" TokenType.tk_identifier ]
                    (Some (tok "a" TokenType.tk_identifier)))
                 (fresh_heap []) (tok "a" TokenType.tk_identifier)
                 H1 eq_refl eq_refl H4))).
Defined.

(** A parser that stands on a minus sign or on an opening parenthesis with
    no token ahead: [parseExpression] has no outcome within any budget, at
    any threshold.  Each call advances, to no effect, and calls itself on the
    same token. *)
Theorem operator_at_end_diverges
  (fuel : nat) (p : Precedence.t) (s : Parser) (h : Heap) (t : Token) :
  current_token s = Some t ->
  tk_type t = TokenType.tk_minus \/ tk_type t = TokenType.tk_l_paren ->
  len (tokens s) <= tk_index s ->
  parseExpression fuel p s h = OutOfFuel.
Proof.
  intros Hc [Ht | Ht] Hend.
  - eapply prefix_at_end_diverges; eassumption.
  - eapply group_at_end_diverges; eassumption.
Qed.

Lemma operator_at_end_diverges_witness :
  current_token (mkParser 1 "main.pe" [tok "(" TokenType.tk_l_paren]
                          (Some (tok "(" TokenType.tk_l_paren)))
  = Some (tok "(" TokenType.tk_l_paren) /\
  (tk_type (tok "(" TokenType.tk_l_paren) = TokenType.tk_minus \/
   tk_type (tok "(" TokenType.tk_l_paren) = TokenType.tk_l_paren) /\
  len [tok "(" TokenType.tk_l_paren] <= 1 /\
  parseExpression 1000 Precedence.pr_lowest
    (mkParser 1 "main.pe" [tok "(" TokenType.tk_l_paren]
              (Some (tok "(" TokenType.tk_l_paren)))
    (fresh_heap [])
  = OutOfFuel.
Proof.
  assert (H2 : tk_type (tok "(" TokenType.tk_l_paren) = TokenType.tk_minus \/
               tk_type (tok "(" TokenType.tk_l_paren) = TokenType.tk_l_paren)
    by (right; reflexivity).
  assert (H3 : len [tok "(" TokenType.tk_l_paren] <= 1)
    by (unfold len; simpl; lia).
  exact (conj eq_refl
           (conj H2
              (conj H3
                 (operator_at_end_diverges 1000 Precedence.pr_lowest
                    (mkParser 1 "main.pe" [tok "(" TokenType.tk_l_paren]
                       (Some (tok "(" TokenType.tk_l_paren)))
                    (fresh_heap []) (tok "(" TokenType.tk_l_paren)
                    eq_refl H2 H3)))).
Defined.

(** ** Parser.parseExpression: what it builds *)

Lemma returns_ret {A} (P : A -> Prop) a : P a -> returns P (ret a).
Proof. intros Ha s h a' s' h' H. inversion H; subst. exact Ha. Qed.

Lemma returns_bind {A B} (Q : A -> Prop) (P : B -> Prop)
  (m : M A) (k : A -> M B) :
  returns Q m -> (forall a, Q a -> returns P (k a)) -> returns P (bind m k).
Proof.
  intros Hm Hk s h b s' h'. unfold bind.
  destruct (m s h) as [a s1 h1 | |] eqn:E; try discriminate.
  intros H. eapply Hk; [eapply Hm; eassumption | eassumption].
Qed.

Lemma returns_any {A} (m : M A) : returns (fun _ => True) m.
Proof. intros s h a s' h' _. exact I. Qed.

Lemma returns_bind_any {A B} (P : B -> Prop) (m : M A) (k : A -> M B) :
  (forall a, returns P (k a)) -> returns P (bind m k).
Proof.
  intros Hk. eapply returns_bind; [apply returns_any | auto].
Qed.

Lemma returns_local {A} (P : A -> Prop) (o : option A) :
  (forall a, o = Some a -> P a) -> returns P (local o).
Proof.
  intros Ho. destruct o; [apply returns_ret; auto |].
  intros s h a s' h' H. discriminate H.
Qed.

Lemma built_binary l op r :
  built l -> built r -> built (BinaryOperation l op r).
Proof. intros [H1 H2] [H3 H4]. split; simpl; now rewrite ?H1, ?H2, ?H3, ?H4. Qed.

Lemma built_prefix pre v : built v -> built (PrefixExpression pre v).
Proof. intros H. exact H. Qed.

Lemma returns_parseBinaryOperation rec left :
  (forall p, returns built (rec p)) -> built left ->
  returns built (parseBinaryOperation rec left).
Proof.
  intros Hrec Hl. unfold parseBinaryOperation.
  do 4 (apply returns_bind_any; intros).
  eapply returns_bind; [apply Hrec |]. intros r Hr.
  apply returns_ret. now apply built_binary.
Qed.

(** The primary returns a node of [built], or leaves [left] unbound. *)
Lemma returns_parsePrimary rec :
  (forall p, returns built (rec p)) ->
  returns (fun left => forall n, left = Some n -> built n)
          (parsePrimary rec).
Proof.
  intros Hrec s h left s' h' H n ->. unfold parsePrimary in H.
  unfold bind at 1 in H. unfold read_current_token at 1 in H.
  unfold bind at 1 in H. unfold get_self at 1 in H.
  destruct (current_token s) as [t |] eqn:Hc; [| discriminate H].
  simpl getattr in H. unfold ret at 1 in H.
  destruct (TokenType.eqb (tk_type t) TokenType.tk_int).
  { unfold parseInteger, read_current_token, bind, get_self in H.
    cbv beta iota in H. rewrite Hc in H. simpl in H. inversion H. split; reflexivity. }
  destruct (TokenType.eqb (tk_type t) TokenType.tk_str).
  { unfold parseString, read_current_token, bind, get_self in H.
    cbv beta iota in H. rewrite Hc in H. simpl in H. inversion H. split; reflexivity. }
  destruct (TokenType.eqb (tk_type t) TokenType.tk_bool) eqn:Eb.
  { unfold parseBool, read_current_token, bind, get_self in H.
    cbv beta iota in H. rewrite Hc in H. simpl in H. inversion H.
    apply TokenType_eqb_eq in Eb. rewrite Eb. split; reflexivity. }
  destruct (TokenType.eqb (tk_type t) TokenType.tk_identifier).
  { unfold parseIdentifier, read_current_token, bind, get_self in H.
    cbv beta iota in H. rewrite Hc in H. simpl in H. inversion H. split; reflexivity. }
  destruct (TokenType.eqb (tk_type t) TokenType.tk_l_paren).
  { refine ((_ : returns (fun left => forall n0, left = Some n0 -> built n0)
                      (n1 <- parseGroupedExpression rec ;; ret (Some n1)))
              s h (Some n) s' h' H n eq_refl).
    eapply returns_bind with (Q := built).
    - unfold parseGroupedExpression. apply returns_bind_any; intros _.
      eapply returns_bind; [apply Hrec |]. intros node Hnode.
      apply returns_bind_any; intros _. now apply returns_ret.
    - intros a Ha. apply returns_ret. intros n0 E. now inversion E; subst. }
  destruct (TokenType.eqb (tk_type t) TokenType.tk_minus).
  { refine ((_ : returns (fun left => forall n0, left = Some n0 -> built n0)
                      (n1 <- parsePrefixExpression rec ;; ret (Some n1)))
              s h (Some n) s' h' H n eq_refl).
    eapply returns_bind with (Q := built).
    - unfold parsePrefixExpression. do 2 (apply returns_bind_any; intros ?).
      eapply returns_bind; [apply Hrec |]. intros node Hnode.
      apply returns_ret. now apply built_prefix.
    - intros a Ha. apply returns_ret. intros n0 E. now inversion E; subst. }
  unfold bind, print, ret in H. inversion H.
Qed.

Lemma returns_parseExpression_climb fuel :
  (forall p, returns built (parseExpression fuel p)) /\
  (forall p left, (forall n, left = Some n -> built n) ->
                  returns built (climb fuel p left)).
Proof.
  induction fuel as [| fuel [IHe IHc]]; split; intros.
  - intros s h a s' h' H. discriminate H.
  - intros s h a s' h' H'. discriminate H'.
  - rewrite parseExpression_S.
    eapply returns_bind; [apply returns_parsePrimary; exact IHe |].
    intros left Hl. now apply IHc.
  - rewrite climb_S. apply returns_bind_any; intros np.
    destruct (Precedence.gtb np p); [| now apply returns_local].
    apply returns_bind_any; intros.
    eapply returns_bind; [apply returns_local; exact H |]. intros l Hl.
    eapply returns_bind;
      [apply returns_parseBinaryOperation; [exact IHe | exact Hl] |].
    intros l' Hl'. apply IHc. intros n E. now inversion E; subst.
Qed.

Lemma Node_str_expression n :
  is_expression n = true -> exists str, Node_str n = Some str.
Proof.
  induction n as [v | v | b | v | l IHl op r IHr | pre v IHv | |];
    simpl; intros H; try discriminate; eauto.
  - apply andb_true_iff in H. destruct H as [Hl Hr].
    destruct (IHl Hl) as (sl & ->). destruct (IHr Hr) as (sr & ->). eauto.
  - destruct (IHv H) as (sv & ->). eauto.
Qed.

(** Every node that [parseExpression] returns is built from the six
    expression classes of ast.py alone, and so has a rendering. *)
Theorem parseExpression_returns_expression
  (fuel : nat) (p : Precedence.t) (s s' : Parser) (h h' : Heap) (n : Node) :
  parseExpression fuel p s h = Ok n s' h' ->
  is_expression n = true /\ exists str, Node_str n = Some str.
Proof.
  intros H.
  destruct (proj1 (returns_parseExpression_climb fuel) p s h n s' h' H)
    as [He _].
  split; [exact He | now apply Node_str_expression].
Qed.

Lemma parseExpression_returns_expression_witness :
  parseExpression 6 Precedence.pr_lowest parser_chain (fresh_heap [])
  = Ok (left_nested (Identifier "a") chain_b_c_d)
       (mkParser 7 "main.pe" (tokens parser_chain)
                 (Some (tok "d" TokenType.tk_identifier)))
       (fresh_heap []) /\
  is_expression (left_nested (Identifier "a") chain_b_c_d) = true /\
  exists str, Node_str (left_nested (Identifier "a") chain_b_c_d) = Some str.
Proof.
  exact (conj eq_refl
           (parseExpression_returns_expression 6 Precedence.pr_lowest
              parser_chain
              (mkParser 7 "main.pe" (tokens parser_chain)
                 (Some (tok "d" TokenType.tk_identifier)))
              (fresh_heap []) (fresh_heap [])
              (left_nested (Identifier "a") chain_b_c_d) eq_refl)).
Defined.

(** No node that [parseExpression] returns contains the literal [true]: the
    only branch that builds a boolean literal is taken on the tag [tk_bool]
    and computes the value by comparing that tag with [tk_true]. *)
Theorem parseExpression_never_true
  (fuel : nat) (p : Precedence.t) (s s' : Parser) (h h' : Heap) (n : Node) :
  parseExpression fuel p s h = Ok n s' h' ->
  only_false_literals n = true.
Proof.
  intros H.
  exact (proj2 (proj1 (returns_parseExpression_climb fuel) p s h n s' h' H)).
Qed.

Lemma parseExpression_never_true_witness :
  parseExpression 2 Precedence.pr_lowest
    (mkParser 1 "main.pe" [tok "true" TokenType.tk_bool]
              (Some (tok "true" TokenType.tk_bool)))
    (fresh_heap [])
  = Ok (BoolLiteral false)
       (mkParser 1 "main.pe" [tok "true" TokenType.tk_bool]
                 (Some (tok "true" TokenType.tk_bool)))
       (fresh_heap []) /\
  only_false_literals (BoolLiteral false) = true.
Proof.
  exact (conj eq_refl
           (parseExpression_never_true 2 Precedence.pr_lowest
              (mkParser 1 "main.pe" [tok "true" TokenType.tk_bool]
                 (Some (tok "true" TokenType.tk_bool)))
              (mkParser 1 "main.pe" [tok "true" TokenType.tk_bool]
                 (Some (tok "true" TokenType.tk_bool)))
              (fresh_heap []) (fresh_heap []) (BoolLiteral false) eq_refl)).
Defined.
